(** * regex_discrete: the backtracking matcher of [regex.py]

    A shallow embedding of [src/regex.py]: the state classes and the
    construction of the state chain by [RegexFSM.__init__] over an explicit
    object heap, the tokenizer and the recursive matcher of
    [RegexFSM.check_string].

    Python strings are sequences of code points; a character is its code
    point, a natural number.  Loops and the recursion of [match] are
    modelled with fuel: a run returns a value, raises a Python exception,
    or runs out of fuel. *)

From Stdlib Require Import NArith String Ascii.
From stdpp Require Import base decidable option numbers list.

Local Open Scope N_scope.
Local Open Scope nat_scope.

(** ** Characters and strings *)

Abbreviation char := N (only parsing).
Abbreviation pystr := (list N) (only parsing).

(** A Python string literal, written as a Rocq string of one-byte characters. *)
Definition py (lit : string) : pystr :=
  N_of_ascii <$> list_ascii_of_string lit.

Definition dot : char := 46%N.   (* "." *)
Definition star : char := 42%N.  (* "*" *)
Definition plus : char := 43%N.  (* "+" *)

(** [c.isascii()] for a one-character string. *)
Definition isascii (c : char) : bool := (c <? 128)%N.

(** [c in "*+"] for a one-character string. *)
Definition in_star_plus (c : char) : bool := (c =? star)%N || (c =? plus)%N.

(** ** Outcomes of a run *)

Inductive exn : Set :=
| IndexError
| AttributeError.

Inductive outcome (A : Type) : Type :=
| Val (a : A)
| Raise (e : exn)
| OutOfFuel.
Arguments Val {A} a.
Arguments Raise {A} e.
Arguments OutOfFuel {A}.

#[global] Instance outcome_ret : MRet outcome := fun A a => Val a.
#[global] Instance outcome_bind : MBind outcome := fun A B k m =>
  match m with
  | Val a => k a
  | Raise e => Raise e
  | OutOfFuel => OutOfFuel
  end.

(** [l[i]] for an index that is not negative. *)
Definition getitem {A : Type} (l : list A) (i : nat) : outcome A :=
  match l !! i with
  | Some a => Val a
  | None => Raise IndexError
  end.

(** ** Tokens *)

(** A token is the pair [(ch, quant)]: [quant] is the string [""], ["*"]
    or ["+"]. *)
Abbreviation token := (N * list N)%type (only parsing).

(** The [while i < len(self.pattern)] loop of [check_string]. *)
Fixpoint tokenize (fuel : nat) (pattern : pystr) (i : nat)
    (tokens : list token) : outcome (list token) :=
  match fuel with
  | O => OutOfFuel
  | S fuel =>
    if i <? length pattern then
      ch ← getitem pattern i;
      '(quant, i) ←
        (if i + 1 <? length pattern then
           nxt ← getitem pattern (i + 1);
           if in_star_plus nxt then Val ([nxt], i + 2) else Val ([], i + 1)
         else Val ([], i + 1));
      tokenize fuel pattern i (tokens ++ [(ch, quant)])
    else Val tokens
  end.

(** ** The matcher *)

(** The local predicate [ok] of [match], for the atom [sym]. *)
Definition ok (sym c : char) : bool := (sym =? dot)%N || (c =? sym)%N.

(** The loop
[[
    while indx < len(s) and ok(s[indx]):
        indx += 1
        if match(pattern_ind+1, indx):
            return True
    return False
]]
    shared by the ["*"] and ["+"] branches; [k] is [match(pattern_ind+1, _)]. *)
Fixpoint match_while (fuel : nat) (k : nat → outcome bool) (okp : char → bool)
    (s : pystr) (indx : nat) : outcome bool :=
  match fuel with
  | O => OutOfFuel
  | S fuel =>
    if indx <? length s then
      c ← getitem s indx;
      if okp c then
        let indx := indx + 1 in
        b ← k indx;
        if (b : bool) then Val true else match_while fuel k okp s indx
      else Val false
    else Val false
  end.

(** The nested function [match(pattern_ind, str_ind)]. *)
Fixpoint match_ (fuel : nat) (tokens : list token) (s : pystr)
    (pattern_ind str_ind : nat) : outcome bool :=
  match fuel with
  | O => OutOfFuel
  | S fuel =>
    if pattern_ind =? length tokens then Val (str_ind =? length s)
    else
      '(sym, quant) ← getitem tokens pattern_ind;
      if bool_decide (quant = [star]) then
        b ← match_ fuel tokens s (pattern_ind + 1) str_ind;
        if (b : bool) then Val true
        else match_while fuel (match_ fuel tokens s (pattern_ind + 1))
                         (ok sym) s str_ind
      else if bool_decide (quant = [plus]) then
        if length s <=? str_ind then Val false
        else
          c ← getitem s str_ind;
          if negb (ok sym c) then Val false
          else
            let indx := str_ind + 1 in
            b ← match_ fuel tokens s (pattern_ind + 1) indx;
            if (b : bool) then Val true
            else match_while fuel (match_ fuel tokens s (pattern_ind + 1))
                             (ok sym) s indx
      else
        if str_ind <? length s then
          c ← getitem s str_ind;
          if ok sym c then match_ fuel tokens s (pattern_ind + 1) (str_ind + 1)
          else Val false
        else Val false
  end.

(** A [RegexFSM] instance: its only instance attribute is [pattern];
    [curr_state] is an attribute of the class. *)
Record RegexFSM : Set := { pattern : pystr }.

Definition check_string (fuel : nat) (self : RegexFSM) (s : pystr)
    : outcome bool :=
  tokens ← tokenize fuel (pattern self) 0 [];
  match_ fuel tokens s 0 0.

(** ** The state chain *)

(** What a variable or a list slot of the construction holds: [None] or a
    reference to a state object, the address of the object in the heap. *)
Inductive value : Set :=
| PyNone
| Ref (addr : nat).

#[global] Instance value_eq_dec : EqDecision value.
Proof. solve_decision. Defined.

(** The concrete subclasses of [State], each with its own attributes. *)
Inductive State_class : Set :=
| StartState
| TerminationState
| DotState
| AsciiState (symbol : char)
| StarState (base : value)
| PlusState (checking_state : value).

(** A state object: its class and the list [next_states] that
    [State.__init__] creates empty. *)
Record State : Set := { cls : State_class; next_states : list value }.

Abbreviation heap := (list State) (only parsing).

(** Calling a state class: the new object is allocated at a fresh address. *)
Definition new (c : State_class) (h : heap) : value * heap :=
  (Ref (length h), h ++ [{| cls := c; next_states := [] |}]).

(** [st.next_states.append(v)] on the object [st]. *)
Definition append (v : value) (st : State) : State :=
  {| cls := cls st; next_states := next_states st ++ [v] |}.

(** [prev_state.next_states.append(v)]: looking [next_states] up on [None]
    raises [AttributeError]. *)
Definition append_next (prev_state v : value) (h : heap) : outcome heap :=
  match prev_state with
  | PyNone => Raise AttributeError
  | Ref a => Val (alter (append v) a h)
  end.

(** The class attribute [RegexFSM.curr_state]: the one [StartState] object
    created when the class body runs, at address 0 of [heap0]. *)
Definition curr_state : value := Ref 0.
Definition heap0 : heap := [{| cls := StartState; next_states := [] |}].

(** [RegexFSM.__init_next_state]: the function ends without a [return] when
    no test succeeds, so the call evaluates to [None]. *)
Definition __init_next_state (next_token : char)
    (prev_state tmp_next_state : value) (h : heap) : value * heap :=
  if (next_token =? dot)%N then new DotState h
  else if (next_token =? star)%N then new (StarState tmp_next_state) h
  else if (next_token =? plus)%N then new (PlusState tmp_next_state) h
  else if isascii next_token then new (AsciiState next_token) h
  else (PyNone, h).

(** The [for ch in regex_expr] loop of [RegexFSM.__init__]; it returns the
    last [prev_state].  The heap keeps what was done before an exception. *)
Fixpoint init_loop (regex_expr : pystr) (prev_state tmp_state : value)
    (h : heap) : outcome value * heap :=
  match regex_expr with
  | [] => (Val prev_state, h)
  | ch :: regex_expr =>
    let '(new_state, h) := __init_next_state ch prev_state tmp_state h in
    match append_next prev_state new_state h with
    | Val h => init_loop regex_expr new_state new_state h
    | Raise e => (Raise e, h)
    | OutOfFuel => (OutOfFuel, h)
    end
  end.

(** [RegexFSM.__init__]: [RegexFSM(regex_expr)] run in the heap [h]. *)
Definition __init__ (regex_expr : pystr) (h : heap)
    : outcome RegexFSM * heap :=
  match init_loop regex_expr curr_state curr_state h with
  | (Val prev_state, h) =>
    match prev_state with
    | PyNone => (Raise AttributeError, h)
    | Ref _ =>
      let '(term, h) := new TerminationState h in
      match append_next prev_state term h with
      | Val h => (Val {| pattern := regex_expr |}, h)
      | Raise e => (Raise e, h)
      | OutOfFuel => (OutOfFuel, h)
      end
    end
  | (Raise e, h) => (Raise e, h)
  | (OutOfFuel, h) => (OutOfFuel, h)
  end.

(** ** The matcher with its recursive calls recorded *)

(** One recursive call of [match]: the arguments of the invocation that
    makes the call, and the arguments it passes. *)
Record call : Set := { caller : nat * nat; callee : nat * nat }.

(** A recursive call run from the invocation [here], put in front of the
    calls made below it. *)
Definition traced (here there : nat * nat) (run : outcome (bool * list call))
    : outcome (bool * list call) :=
  '(b, log) ← run;
  Val (b, {| caller := here; callee := there |} :: log).

Fixpoint match_while_log (fuel : nat) (k : nat → outcome (bool * list call))
    (okp : char → bool) (s : pystr) (indx : nat)
    : outcome (bool * list call) :=
  match fuel with
  | O => OutOfFuel
  | S fuel =>
    if indx <? length s then
      c ← getitem s indx;
      if okp c then
        let indx := indx + 1 in
        '(b, log) ← k indx;
        if (b : bool) then Val (true, log)
        else
          '(b, log') ← match_while_log fuel k okp s indx;
          Val (b, log ++ log')
      else Val (false, [])
    else Val (false, [])
  end.

(** [match_] again, returning with the result every recursive call of the
    run, in the order the calls are made. *)
Fixpoint match_log (fuel : nat) (tokens : list token) (s : pystr)
    (pattern_ind str_ind : nat) : outcome (bool * list call) :=
  match fuel with
  | O => OutOfFuel
  | S fuel =>
    let recur indx :=
      traced (pattern_ind, str_ind) (pattern_ind + 1, indx)
             (match_log fuel tokens s (pattern_ind + 1) indx) in
    if pattern_ind =? length tokens then Val (str_ind =? length s, [])
    else
      '(sym, quant) ← getitem tokens pattern_ind;
      if bool_decide (quant = [star]) then
        '(b, log) ← recur str_ind;
        if (b : bool) then Val (true, log)
        else
          '(b, log') ← match_while_log fuel recur (ok sym) s str_ind;
          Val (b, log ++ log')
      else if bool_decide (quant = [plus]) then
        if length s <=? str_ind then Val (false, [])
        else
          c ← getitem s str_ind;
          if negb (ok sym c) then Val (false, [])
          else
            let indx := str_ind + 1 in
            '(b, log) ← recur indx;
            if (b : bool) then Val (true, log)
            else
              '(b, log') ← match_while_log fuel recur (ok sym) s indx;
              Val (b, log ++ log')
      else
        if str_ind <? length s then
          c ← getitem s str_ind;
          if ok sym c then recur (str_ind + 1) else Val (false, [])
        else Val (false, [])
  end.

(** The result of a recorded run. *)
Definition forget (run : outcome (bool * list call)) : outcome bool :=
  '(b, _) ← run; Val b.

(** ** What the loops compute *)

(** The tokens of a pattern, by recursion on the pattern: what [tokenize]
    returns (lemma [tokenize_tokens_of]). *)
Fixpoint tokens_of (p : pystr) : list token :=
  match p with
  | [] => []
  | ch :: tl =>
    match tl with
    | nxt :: rest =>
      if in_star_plus nxt then (ch, [nxt]) :: tokens_of rest
      else (ch, []) :: tokens_of tl
    | [] => (ch, []) :: tokens_of tl
    end
  end.

(** The tries of [match_while] on the rest [w] of the input: after one
    accepted character, after two, ... *)
Fixpoint scan (k : pystr → bool) (okp : char → bool) (w : pystr) : bool :=
  match w with
  | [] => false
  | c :: w => okp c && (k w || scan k okp w)
  end.

(** What [match_] returns on the tokens from [pattern_ind] and the input
    from [str_ind] (lemma [match_accepts]). *)
Fixpoint accepts (tokens : list token) (w : pystr) : bool :=
  match tokens with
  | [] => bool_decide (w = [])
  | (sym, quant) :: tokens =>
    if bool_decide (quant = [star]) then
      accepts tokens w || scan (accepts tokens) (ok sym) w
    else if bool_decide (quant = [plus]) then
      match w with
      | [] => false
      | c :: w => ok sym c && (accepts tokens w || scan (accepts tokens) (ok sym) w)
      end
    else
      match w with
      | [] => false
      | c :: w => ok sym c && accepts tokens w
      end
  end.

(** [check_string] returns [b]: every run with fuel enough ends with the
    value [b]; no exception, no run that goes on for ever. *)
Definition returns (self : RegexFSM) (s : pystr) (b : bool) : Prop :=
  ∃ n, ∀ fuel, n ≤ fuel → check_string fuel self s = Val b.

(** ** The scan of the tokenizer *)

(** The character after an atom is its quantifier. *)
Definition head_quant (tl : pystr) : bool :=
  match tl with
  | nxt :: _ => in_star_plus nxt
  | [] => false
  end.


(** ** Patterns without quantifiers *)

(** The comparison character by character of a pattern without
    quantifiers [p] with the input [s]: the same length and, at every
    position, the wildcard or the character of the input. *)
Definition compare_direct (p s : pystr) : Prop :=
  length s = length p ∧
  ∀ i c d, p !! i = Some c → s !! i = Some d → c = dot ∨ c = d.

Definition no_quantifier (p : pystr) : Prop :=
  Forall (λ c, c ≠ star ∧ c ≠ plus) p.

(** ** The graph of the states *)

(** The edges that leave the object at [a]: its [next_states]. *)
Definition out_degree (h : heap) (a : nat) : nat :=
  from_option (λ st, length (next_states st)) 0 (h !! a).

(** The edges that reach the object at [a], from the objects of the heap. *)
Definition in_degree (h : heap) (a : nat) : nat :=
  length (filter (λ v, v = Ref a) (h ≫= next_states)).

(** The graph is a simple path: Start, the object [curr_state], is the
    unique node with no incoming edge, Termination is the unique node with
    no outgoing edge, every other node has exactly one incoming and one
    outgoing edge. *)
Definition simple_path (h : heap) : Prop :=
  (∀ a, a < length h → in_degree h a = 0 ↔ Ref a = curr_state) ∧
  (∃ t, cls <$> h !! t = Some TerminationState ∧
        ∀ a, a < length h → out_degree h a = 0 ↔ a = t) ∧
  (∀ a, a < length h → in_degree h a ≠ 0 → out_degree h a ≠ 0 →
        in_degree h a = 1 ∧ out_degree h a = 1).

(** The [next_states] of a chain of [m] objects, each with the next
    address as its one next state. *)
Definition chain_links (m : nat) : list (list value) :=
  (λ a, [Ref (S a)]) <$> seq 0 m.

(** ** The recursive calls *)

(** The quantifier of the token at [pattern_ind]. *)
Definition quant_at (tokens : list token) (pattern_ind : nat)
    : option pystr :=
  snd <$> tokens !! pattern_ind.

(** A call made for a token with a quantifier goes to a greater index of
    the string. *)
Definition strictly_advances (tokens : list token) (e : call) : Prop :=
  quant_at tokens (caller e).1 ≠ Some [] → (caller e).2 < (callee e).2.

(** A call goes to the next token and not back in the string; it stays at
    the same index of the string only for a token with ["*"], and goes on
    by one character for a token without quantifier. *)
Definition call_advances (tokens : list token) (e : call) : Prop :=
  (callee e).1 = (caller e).1 + 1 ∧
  (caller e).2 ≤ (callee e).2 ∧
  ((callee e).2 = (caller e).2 → quant_at tokens (caller e).1 = Some [star]) ∧
  (quant_at tokens (caller e).1 = Some [] → (callee e).2 = (caller e).2 + 1).

(** ** The pieces of an accepted input *)

(** The piece of the input that a token takes: characters that [ok]
    accepts for its atom; any number of them with ["*"], one at least with
    ["+"], one exactly otherwise. *)
Definition token_takes (t : token) (w : pystr) : Prop :=
  Forall (λ c, ok t.1 c = true) w ∧
  if bool_decide (t.2 = [star]) then True
  else if bool_decide (t.2 = [plus]) then w ≠ []
  else length w = 1.

(** The input is cut in pieces, one for each token in turn. *)
Definition cut_by (tokens : list token) (s : pystr) : Prop :=
  ∃ ws, concat ws = s ∧ Forall2 token_takes tokens ws.

(** The tokens that take one character at least: all but those with
    ["*"]. *)
Definition needs_char (tokens : list token) : list token :=
  filter (λ t : token, t.2 ≠ [star]) tokens.

(** The quantifier is one that the tokenizer writes. *)
Definition quant_ok (t : token) : Prop :=
  t.2 = [] ∨ t.2 = [star] ∨ t.2 = [plus].

(** The call is made with indices inside the tokens and the input: the
    end of each is the last index passed. *)
Definition call_in_range (tokens : list token) (s : pystr) (e : call) : Prop :=
  (callee e).1 ≤ length tokens ∧ (callee e).2 ≤ length s.

(** ** The states of a construction *)

(** The class of the state that [__init_next_state] makes for an ASCII
    character [c], with [prev] in [tmp_next_state]. *)
Definition class_of (c : char) (prev : value) : State_class :=
  if (c =? dot)%N then DotState
  else if (c =? star)%N then StarState prev
  else if (c =? plus)%N then PlusState prev
  else AsciiState c.

(** The objects that [RegexFSM(p)] adds to the heap, the first at the
    address [a] and made after the state [prev]: a state for each
    character, with the next address as its one next state, and the
    termination state (lemma [init_loop_builds]). *)
Fixpoint new_states (a : nat) (prev : value) (p : pystr) : list State :=
  match p with
  | [] => [{| cls := TerminationState; next_states := [] |}]
  | c :: p =>
    {| cls := class_of c prev; next_states := [Ref (S a)] |}
    :: new_states (S a) (Ref a) p
  end.

(** What the first [append] of a construction puts in the [next_states] of
    the start state: the first new object, or the [None] returned for a
    first character that is not ASCII. *)
Definition first_next (p : pystr) (h : heap) : value :=
  match p with
  | [] => Ref (length h)
  | c :: _ => if isascii c then Ref (length h) else PyNone
  end.

(** The instances [RegexFSM(p)] for the patterns of [ps], constructed in
    turn; the heap after the last. *)
Definition construct_all (ps : list pystr) (h : heap) : heap :=
  foldl (λ h p, (__init__ p h).2) h ps.

(** The statements of [__init__] after the loop, on what the loop left. *)
Definition after_loop (regex_expr : pystr) (r : outcome value * heap)
    : outcome RegexFSM * heap :=
  match r with
  | (Val prev_state, h) =>
    match prev_state with
    | PyNone => (Raise AttributeError, h)
    | Ref _ =>
      let '(term, h) := new TerminationState h in
      match append_next prev_state term h with
      | Val h => (Val {| pattern := regex_expr |}, h)
      | Raise e => (Raise e, h)
      | OutOfFuel => (OutOfFuel, h)
      end
    end
  | (Raise e, h) => (Raise e, h)
  | (OutOfFuel, h) => (OutOfFuel, h)
  end.

(** ** The methods of the states *)

(** [self.check_self(char)], by the class of the object [self].  On
    [None] the call raises [AttributeError].  An address outside the heap
    is no reference that [new] returned: it holds no object, and the run
    has no outcome. *)
Fixpoint check_self (fuel : nat) (h : heap) (self : value) (ch : char)
    : outcome bool :=
  match fuel with
  | O => OutOfFuel
  | S fuel =>
    match self with
    | PyNone => Raise AttributeError
    | Ref a =>
      match h !! a with
      | None => OutOfFuel
      | Some st =>
        match cls st with
        | StartState => Val false
        | TerminationState => Val false
        | DotState => Val true
        | AsciiState symbol => Val (ch =? symbol)%N
        | StarState base => check_self fuel h base ch
        | PlusState checking_state => check_self fuel h checking_state ch
        end
      end
    end
  end.

(** How [check_next] ends: it returns a state, raises
    [NotImplementedError("rejected string")], or ends as the call of
    [check_self] that it made. *)
Inductive next_outcome : Set :=
| Next (state : value)
| Rejected
| NextRaise (e : exn)
| NextOutOfFuel.

(** The loop [for state in self.next_states] of [check_next], and the
    [raise] after it. *)
Fixpoint check_next_for (fuel : nat) (h : heap) (states : list value)
    (next_char : char) : next_outcome :=
  match states with
  | [] => Rejected
  | state :: states =>
    match check_self fuel h state next_char with
    | Val true => Next state
    | Val false => check_next_for fuel h states next_char
    | Raise e => NextRaise e
    | OutOfFuel => NextOutOfFuel
    end
  end.

(** [self.check_next(next_char)]. *)
Definition check_next (fuel : nat) (h : heap) (self : value)
    (next_char : char) : next_outcome :=
  match self with
  | PyNone => NextRaise AttributeError
  | Ref a =>
    match h !! a with
    | None => NextOutOfFuel
    | Some st => check_next_for fuel h (next_states st) next_char
    end
  end.

(** The atom at the index [i] of the pattern or, when a ['*'] or ['+'] is
    there, the nearest before it; none when only such characters are at
    [i] and before. *)
Fixpoint nearest_atom (p : pystr) (i : nat) : option char :=
  match p !! i with
  | None => None
  | Some c =>
    if in_star_plus c then
      match i with
      | O => None
      | S j => nearest_atom p j
      end
    else Some c
  end.

(** What the nearest atom accepts, by [ok]; nothing when there is none. *)
Definition graph_ok (p : pystr) (i : nat) (ch : char) : bool :=
  match nearest_atom p i with
  | Some X => ok X ch
  | None => false
  end.

(** ** Atom positions *)

(** The scan of the tokenizer over [p] ends on a quantifier: [p] is empty
    or its last token has a quantifier.  The character that comes next is
    then read as an atom, whatever it is. *)
Definition atom_position (p : pystr) : Prop :=
  p = [] ∨ ∃ t : token, last (tokens_of p) = Some t ∧ t.2 ≠ [].

(** The calls that the invocation [match(pattern_ind, _)] makes itself,
    among the calls of its run: the calls below it are made for later
    tokens. *)
Definition own_calls (pattern_ind : nat) (log : list call) : list call :=
  filter (λ e, (caller e).1 = pattern_ind) log.

(** The calls from [match(pattern_ind, str_ind)] to the next token, at the
    [n] indices of the string from [first] on, in turn. *)
Definition calls_from (pattern_ind str_ind first n : nat) : list call :=
  (λ j, {| caller := (pattern_ind, str_ind);
           callee := (pattern_ind + 1, j) |}) <$> seq first n.

(** The index of the string in the first call of an invocation: its own
    for a token with ["*"], the next one otherwise. *)
Definition first_index (tokens : list token) (pattern_ind str_ind : nat)
    : nat :=
  if bool_decide (quant_at tokens pattern_ind = Some [star]) then str_ind
  else str_ind + 1.

(** ** The limit of the interpreter on nested calls *)

(** How a run under the limit ends: with a value, on [RecursionError] when
    a call would go deeper than the interpreter allows, on another
    exception, or with the fuel of a loop used up. *)
Inductive limited (A : Type) : Type :=
| Done (a : A)
| RecursionError
| Fails (e : exn)
| Unfinished.
Arguments Done {A} a.
Arguments RecursionError {A}.
Arguments Fails {A} e.
Arguments Unfinished {A}.

#[global] Instance limited_ret : MRet limited := fun A a => Done a.







(** * Properties *)

(** ** Indexing *)

Lemma getitem_Some {A : Type} (l : list A) (i : nat) (a : A) :
  l !! i = Some a → getitem l i = Val a.
Proof. intros H. unfold getitem. by rewrite H. Qed.

Lemma getitem_Val {A : Type} (l : list A) (i : nat) (a : A) :
  getitem l i = Val a → l !! i = Some a.
Proof. unfold getitem. destruct (l !! i); [by intros [= ->]|done]. Qed.

Lemma drop_step {A : Type} (l : list A) (i : nat) :
  i < length l → ∃ a, l !! i = Some a ∧ drop i l = a :: drop (i + 1) l.
Proof.
  intros Hi. destruct (lookup_lt_is_Some_2 l i Hi) as [a Ha].
  exists a. split; [done|]. rewrite Nat.add_1_r. by apply drop_S.
Qed.

(** ** The tokenizer *)

Lemma tokenize_tokens_of (fuel : nat) (p : pystr) :
  ∀ (i : nat) (acc : list token),
    i ≤ length p → length p - i < fuel →
    tokenize fuel p i acc = Val (acc ++ tokens_of (drop i p)).
Proof.
  induction fuel as [|fuel IH]; intros i acc Hi Hfuel; [lia|].
  cbn [tokenize]. destruct (Nat.ltb_spec i (length p)) as [Hlt|Hge].
  - destruct (drop_step p i Hlt) as (ch & Hch & ->).
    rewrite (getitem_Some _ _ _ Hch). cbn [mbind outcome_bind].
    destruct (Nat.ltb_spec (i + 1) (length p)) as [Hlt'|Hge'].
    + destruct (drop_step p (i + 1) Hlt') as (nxt & Hnxt & Hdrop).
      rewrite (getitem_Some _ _ _ Hnxt). cbn [mbind outcome_bind].
      destruct (in_star_plus nxt) eqn:Hq; cbn [mbind outcome_bind];
        rewrite IH by lia; rewrite <- app_assoc, Hdrop; cbn [tokens_of app];
        rewrite Hq; [|done].
      by replace (i + 1 + 1) with (i + 2) by lia.
    + cbn [mbind outcome_bind]. rewrite IH by lia.
      rewrite drop_ge by lia. cbn [tokens_of]. by rewrite <- app_assoc.
  - rewrite drop_ge by lia. cbn [tokens_of]. by rewrite app_nil_r.
Qed.

Lemma tokens_of_quant (ch nxt : char) (rest : pystr) :
  in_star_plus nxt = true →
  tokens_of (ch :: nxt :: rest) = (ch, [nxt]) :: tokens_of rest.
Proof. intros H. cbn [tokens_of]. by rewrite H. Qed.

Lemma tokens_of_plain (ch : char) (tl : pystr) :
  head_quant tl = false → tokens_of (ch :: tl) = (ch, []) :: tokens_of tl.
Proof. destruct tl as [|nxt rest]; cbn [head_quant tokens_of]; [done|]. by intros ->. Qed.

(** Induction along the scan of the tokenizer. *)
Lemma tokens_of_scan_ind (P : pystr → Prop) :
  P [] →
  (∀ ch nxt rest, in_star_plus nxt = true → P rest → P (ch :: nxt :: rest)) →
  (∀ ch tl, head_quant tl = false → P tl → P (ch :: tl)) →
  ∀ p, P p.
Proof.
  intros Hnil Hquant Hplain p.
  assert (H : ∀ n (q : pystr), length q ≤ n → P q).
  { induction n as [|n IH]; intros [|ch tl] Hlen; cbn in Hlen; try done; [lia|].
    destruct (head_quant tl) eqn:Hq.
    - destruct tl as [|nxt rest]; [done|]. cbn in Hq, Hlen.
      apply Hquant; [done|]. apply IH. lia.
    - apply Hplain; [done|]. apply IH. lia. }
  by apply (H (length p)).
Qed.

Lemma tokens_of_length (p : pystr) : length (tokens_of p) ≤ length p.
Proof.
  induction p as [|ch nxt rest Hq IH|ch tl Hq IH] using tokens_of_scan_ind.
  - done.
  - rewrite tokens_of_quant by done. cbn [length]. lia.
  - rewrite tokens_of_plain by done. cbn [length]. lia.
Qed.


(** ** The tokens are the pattern *)


(** ** The matcher *)

Lemma drop_nil_eqb {A : Type} (l : list A) (i : nat) :
  i ≤ length l → (i =? length l) = bool_decide (drop i l = []).
Proof.
  intros Hi. destruct (Nat.eqb_spec i (length l)) as [->|Hne].
  - by rewrite drop_all, bool_decide_eq_true_2.
  - destruct (drop_step l i) as (a & _ & ->); [lia|].
    by rewrite bool_decide_eq_false_2.
Qed.

Lemma match_while_scan (fuel : nat) (k : nat → outcome bool)
    (kk : pystr → bool) (okp : char → bool) (s : pystr) :
  (∀ j, j ≤ length s → k j = Val (kk (drop j s))) →
  ∀ indx, indx ≤ length s → length s - indx < fuel →
    match_while fuel k okp s indx = Val (scan kk okp (drop indx s)).
Proof.
  intros Hk. induction fuel as [|fuel IH]; intros indx Hi Hfuel; [lia|].
  cbn [match_while]. destruct (Nat.ltb_spec indx (length s)) as [Hlt|Hge].
  - destruct (drop_step s indx Hlt) as (c & Hc & ->).
    rewrite (getitem_Some _ _ _ Hc). cbn [mbind outcome_bind scan].
    destruct (okp c); [|done]. rewrite Hk by lia. cbn [mbind outcome_bind andb].
    destruct (kk (drop (indx + 1) s)); [done|]. cbn [orb]. apply IH; lia.
  - by rewrite drop_ge by lia.
Qed.

Lemma match_accepts (fuel : nat) (tokens : list token) (s : pystr) :
  ∀ pattern_ind str_ind,
    pattern_ind ≤ length tokens → str_ind ≤ length s →
    length tokens - pattern_ind + length s < fuel →
    match_ fuel tokens s pattern_ind str_ind
    = Val (accepts (drop pattern_ind tokens) (drop str_ind s)).
Proof.
  induction fuel as [|fuel IH]; intros pi si Hpi Hsi Hfuel; [lia|].
  cbn [match_]. destruct (Nat.eqb_spec pi (length tokens)) as [->|Hne].
  { rewrite drop_all. cbn [accepts]. by rewrite drop_nil_eqb. }
  destruct (drop_step tokens pi) as ([sym quant] & Htok & ->); [lia|].
  rewrite (getitem_Some _ _ _ Htok). cbn [mbind outcome_bind accepts].
  assert (Hk : ∀ j, j ≤ length s →
    match_ fuel tokens s (pi + 1) j
    = Val (accepts (drop (pi + 1) tokens) (drop j s))).
  { intros j Hj. apply IH; lia. }
  destruct (bool_decide (quant = [star])).
  { rewrite Hk by done. cbn [mbind outcome_bind].
    destruct (accepts (drop (pi + 1) tokens) (drop si s)); [done|].
    cbn [orb]. apply match_while_scan; [done|done|lia]. }
  destruct (bool_decide (quant = [plus])).
  { destruct (Nat.leb_spec (length s) si) as [Hge|Hlt].
    { by rewrite drop_ge by lia. }
    destruct (drop_step s si Hlt) as (c & Hc & ->).
    rewrite (getitem_Some _ _ _ Hc). cbn [mbind outcome_bind].
    destruct (ok sym c); [|done]. cbn [negb andb].
    rewrite Hk by lia. cbn [mbind outcome_bind].
    destruct (accepts (drop (pi + 1) tokens) (drop (si + 1) s)); [done|].
    cbn [orb]. apply match_while_scan; [done|lia|lia]. }
  destruct (Nat.ltb_spec si (length s)) as [Hlt|Hge].
  - destruct (drop_step s si Hlt) as (c & Hc & ->).
    rewrite (getitem_Some _ _ _ Hc). cbn [mbind outcome_bind].
    destruct (ok sym c); [|done]. cbn [andb]. apply Hk. lia.
  - by rewrite drop_ge by lia.
Qed.

Lemma check_string_accepts (fuel : nat) (self : RegexFSM) (s : pystr) :
  length (pattern self) + length s < fuel →
  check_string fuel self s = Val (accepts (tokens_of (pattern self)) s).
Proof.
  intros Hfuel. unfold check_string.
  rewrite tokenize_tokens_of by lia. rewrite drop_0. cbn [mbind outcome_bind app].
  pose proof (tokens_of_length (pattern self)).
  rewrite match_accepts by lia. by rewrite !drop_0.
Qed.

Lemma returns_accepts (self : RegexFSM) (s : pystr) :
  returns self s (accepts (tokens_of (pattern self)) s).
Proof.
  exists (S (length (pattern self) + length s)). intros fuel Hfuel.
  apply check_string_accepts. lia.
Qed.

Lemma returns_inj (self : RegexFSM) (s : pystr) (b b' : bool) :
  returns self s b → returns self s b' → b = b'.
Proof.
  intros [n Hn] [n' Hn'].
  specialize (Hn (n + n') ltac:(lia)). specialize (Hn' (n + n') ltac:(lia)).
  congruence.
Qed.

Lemma returns_iff (self : RegexFSM) (s : pystr) (b : bool) :
  returns self s b ↔ accepts (tokens_of (pattern self)) s = b.
Proof.
  split.
  - intros H. apply (returns_inj self s); [apply returns_accepts|done].
  - intros <-. apply returns_accepts.
Qed.

(** ** The branches of the matcher *)

Lemma accepts_star (sym : char) (tokens : list token) (w : pystr) :
  accepts ((sym, [star]) :: tokens) w
  = accepts tokens w || scan (accepts tokens) (ok sym) w.
Proof. cbn [accepts]. by rewrite bool_decide_eq_true_2. Qed.

Lemma accepts_plus (sym : char) (tokens : list token) (w : pystr) :
  accepts ((sym, [plus]) :: tokens) w
  = match w with
    | [] => false
    | c :: w => ok sym c && (accepts tokens w || scan (accepts tokens) (ok sym) w)
    end.
Proof.
  cbn [accepts]. rewrite bool_decide_eq_false_2 by (by intros [=]).
  by rewrite bool_decide_eq_true_2.
Qed.

Lemma accepts_none (sym : char) (tokens : list token) (w : pystr) :
  accepts ((sym, []) :: tokens) w
  = match w with
    | [] => false
    | c :: w => ok sym c && accepts tokens w
    end.
Proof. cbn [accepts]. by rewrite !bool_decide_eq_false_2. Qed.

(** ** Construction *)

Lemma isascii_meta (c : char) :
  isascii c = false → (c =? dot)%N = false ∧ (c =? star)%N = false ∧ (c =? plus)%N = false.
Proof.
  unfold isascii, dot, star, plus. intros H%N.ltb_ge.
  repeat split; apply N.eqb_neq; lia.
Qed.

Lemma init_next_state_ascii (c : char) (prev tmp : value) (h : heap) :
  isascii c = true → ∃ k, __init_next_state c prev tmp h = new k h.
Proof.
  intros Hc. unfold __init_next_state. rewrite Hc.
  destruct (c =? dot)%N; [by eexists|].
  destruct (c =? star)%N; [by eexists|].
  destruct (c =? plus)%N; by eexists.
Qed.

Lemma init_next_state_non_ascii (c : char) (prev tmp : value) (h : heap) :
  isascii c = false → __init_next_state c prev tmp h = (PyNone, h).
Proof.
  intros Hc. destruct (isascii_meta c Hc) as (Hd & Hs & Hp).
  unfold __init_next_state. by rewrite Hd, Hs, Hp, Hc.
Qed.

Lemma init_loop_ascii (p : pystr) :
  Forall (λ c, isascii c = true) p →
  ∀ a tmp (h : heap), ∃ b h', init_loop p (Ref a) tmp h = (Val (Ref b), h').
Proof.
  induction 1 as [|c p Hc _ IH]; intros a tmp h; cbn [init_loop]; [by eauto|].
  destruct (init_next_state_ascii c (Ref a) tmp h Hc) as [k ->].
  unfold new. cbn [append_next]. apply IH.
Qed.

(** A pattern of ASCII characters is compiled, in any heap. *)
Lemma init_ascii (p : pystr) (h : heap) :
  Forall (λ c, isascii c = true) p →
  ∃ h', __init__ p h = (Val {| pattern := p |}, h').
Proof.
  intros Hp. unfold __init__, curr_state.
  destruct (init_loop_ascii p Hp 0 (Ref 0) h) as (b & h' & ->).
  unfold new. cbn [append_next]. by eexists.
Qed.

Lemma init_loop_None (p : pystr) (tmp : value) (h : heap) :
  p ≠ [] → ∃ h', init_loop p PyNone tmp h = (Raise AttributeError, h').
Proof.
  destruct p as [|c p]; [done|]. intros _. cbn [init_loop].
  destruct (__init_next_state c PyNone tmp h) as [new_state h'].
  cbn [append_next]. by eexists.
Qed.

Lemma init_loop_non_ascii (p : pystr) :
  Exists (λ c, isascii c = false) p →
  ∀ prev tmp (h : heap), ∃ h',
    init_loop p prev tmp h = (Raise AttributeError, h')
    ∨ init_loop p prev tmp h = (Val PyNone, h').
Proof.
  induction 1 as [c p Hc|c p _ IH]; intros prev tmp h.
  - destruct prev as [|a].
    { destruct (init_loop_None (c :: p) tmp h) as [h' ->]; by eauto. }
    cbn [init_loop]. rewrite init_next_state_non_ascii by done.
    cbn [append_next]. destruct p as [|c' p].
    + cbn [init_loop]. by eauto.
    + match goal with |- context [init_loop ?q PyNone ?t ?g] =>
        destruct (init_loop_None q t g) as [h' ->]; [done|] end.
      by eauto.
  - destruct prev as [|a].
    { destruct (init_loop_None (c :: p) tmp h) as [h' ->]; by eauto. }
    cbn [init_loop].
    destruct (__init_next_state c (Ref a) tmp h) as [new_state h1].
    cbn [append_next]. apply IH.
Qed.

(** A pattern with a character that is not ASCII is not compiled: the
    [None] that [__init_next_state] returns for it is used as a state. *)
Lemma init_non_ascii (p : pystr) (h : heap) :
  Exists (λ c, isascii c = false) p → (__init__ p h).1 = Raise AttributeError.
Proof.
  intros Hp. unfold __init__.
  by destruct (init_loop_non_ascii p Hp curr_state curr_state h) as [h' [-> | ->]].
Qed.

Lemma init_pattern (p : pystr) (h h' : heap) (self : RegexFSM) :
  __init__ p h = (Val self, h') → pattern self = p.
Proof.
  unfold __init__. destruct (init_loop p curr_state curr_state h) as [[[|a]| |] h1];
    try done.
  unfold new. cbn [append_next]. by intros [= <- _].
Qed.

(** ** The chain built by a construction *)

(** The states that the loop adds lie after [prev_state]: the objects
    before it are left as they are. *)
Lemma init_loop_frame (q : pystr) :
  Forall (λ c, isascii c = true) q →
  ∀ a tmp (h : heap) i, i < a → a < length h →
    ∃ b h', init_loop q (Ref a) tmp h = (Val (Ref b), h') ∧
            h' !! i = h !! i ∧ i < b.
Proof.
  induction 1 as [|c q Hc _ IH]; intros a tmp h i Hi Ha; cbn [init_loop].
  { by exists a, h. }
  destruct (init_next_state_ascii c (Ref a) tmp h Hc) as [k ->].
  unfold new. cbn [append_next].
  edestruct (IH (length h) (Ref (length h))) as (b & h' & -> & Hlook & Hb).
  { exact (Nat.lt_trans _ _ _ Hi Ha). }
  { rewrite length_alter, length_app. cbn. lia. }
  exists b, h'. split; [done|]. split; [|done].
  rewrite Hlook, list_lookup_alter_ne by lia. apply lookup_app_l. lia.
Qed.

(** Every construction appends its first state to the [next_states] of
    the object at address 0, the start state of the class. *)
Lemma init_appends_to_start (q : pystr) (h : heap) (st : State) :
  Forall (λ c, isascii c = true) q → h !! 0 = Some st →
  ∃ h', __init__ q h = (Val {| pattern := q |}, h') ∧
        h' !! 0 = Some (append (Ref (length h)) st).
Proof.
  intros Hq Hst. pose proof (lookup_lt_Some _ _ _ Hst) as Hlen.
  unfold __init__, curr_state. destruct Hq as [|c q Hc Hq]; cbn [init_loop].
  - unfold new. cbn [append_next]. eexists. split; [done|].
    by rewrite list_lookup_alter_eq, lookup_app_l, Hst.
  - destruct (init_next_state_ascii c (Ref 0) (Ref 0) h Hc) as [k ->].
    unfold new. cbn [append_next].
    edestruct (init_loop_frame q Hq (length h) (Ref (length h)))
      as (b & h' & -> & Hlook & Hb); [exact Hlen|..].
    { rewrite length_alter, length_app. cbn. lia. }
    eexists. split; [done|].
    rewrite list_lookup_alter_ne by lia.
    rewrite list_lookup_alter_eq, lookup_app_l, Hst in Hlook by done.
    rewrite lookup_app_l; [done|]. by eapply lookup_lt_Some.
Qed.

Lemma chain_links_S (m : nat) :
  chain_links (S m) = chain_links m ++ [[Ref (S m)]].
Proof. unfold chain_links. by rewrite seq_S, fmap_app. Qed.

(** In a heap that ends a chain, the loop goes on with the chain. *)
Lemma init_loop_chain (p : pystr) :
  Forall (λ c, isascii c = true) p →
  ∀ (h : heap) last tmp,
    next_states last = [] → next_states <$> h = chain_links (length h) →
    ∃ (h' : heap) last',
      init_loop p (Ref (length h)) tmp (h ++ [last])
      = (Val (Ref (length h')), h' ++ [last']) ∧
      next_states last' = [] ∧
      next_states <$> h' = chain_links (length h') ∧
      length h' = length h + length p.
Proof.
  induction 1 as [|c p Hc _ IH]; intros h last tmp Hlast Hh; cbn [init_loop].
  { exists h, last. cbn. by rewrite Nat.add_0_r. }
  destruct (init_next_state_ascii c (Ref (length h)) tmp (h ++ [last]) Hc)
    as [k ->].
  unfold new. cbn [append_next].
  assert (Hl : ∀ x, length (h ++ [x]) = S (length h)).
  { intros x. rewrite length_app. cbn. lia. }
  rewrite Hl. set (node := {| cls := k; next_states := [] |}).
  set (v := Ref (S (length h))).
  replace (alter (append v) (length h) ((h ++ [last]) ++ [node]))
    with ((h ++ [append v last]) ++ [node]).
  2:{ rewrite <- !app_assoc, alter_app_r_alt by done.
      by rewrite Nat.sub_diag. }
  specialize (IH (h ++ [append v last]) node v). rewrite Hl in IH.
  change (Ref (S (length h))) with v in IH.
  destruct IH as (h' & last' & -> & Hlast' & Hh' & Hlen); [done| |].
  { rewrite fmap_app, Hh, chain_links_S. cbn [fmap list_fmap].
    unfold append. cbn [next_states]. by rewrite Hlast. }
  exists h', last'. repeat split; [done..|]. rewrite Hlen. cbn. lia.
Qed.

Lemma filter_Ref_out (a j m : nat) :
  a < j ∨ j + m ≤ a → filter (λ v, v = Ref a) (Ref <$> seq j m) = [].
Proof.
  revert j. induction m as [|m IH]; intros j Ha; [done|].
  cbn [seq fmap list_fmap]. rewrite filter_cons_False by (intros [= ->]; lia).
  apply IH. lia.
Qed.

Lemma filter_Ref_in (a j m : nat) :
  j ≤ a < j + m → filter (λ v, v = Ref a) (Ref <$> seq j m) = [Ref a].
Proof.
  revert j. induction m as [|m IH]; intros j Ha; [lia|].
  cbn [seq fmap list_fmap]. destruct (decide (j = a)) as [->|Hne].
  - rewrite filter_cons_True by done. f_equal. apply filter_Ref_out. lia.
  - rewrite filter_cons_False by (intros [= ->]; lia). apply IH. lia.
Qed.

Lemma targets_chain (h : heap) :
  ∀ j m, next_states <$> h = (λ a, [Ref (S a)]) <$> seq j m →
         h ≫= next_states = Ref <$> seq (S j) m.
Proof.
  induction h as [|st h IH]; intros j [|m]; cbn [seq fmap list_fmap]; try done.
  intros [= Hst Hh]. rewrite bind_cons, Hst. cbn [app]. f_equal. by apply IH.
Qed.

(** A chain closed by a termination state is a simple path. *)
Lemma chain_simple_path (h : heap) :
  h !! 0 ≠ None → next_states <$> h = chain_links (length h) →
  simple_path (h ++ [{| cls := TerminationState; next_states := [] |}]).
Proof.
  intros Hne Hh. set (term := {| cls := TerminationState; next_states := [] |}).
  assert (Hm : 0 < length h) by (destruct h; [done|cbn; lia]).
  assert (Hlen : length (h ++ [term]) = S (length h)).
  { rewrite length_app. cbn. lia. }
  assert (Hin : ∀ a, in_degree (h ++ [term]) a
                     = length (filter (λ v, v = Ref a) (Ref <$> seq 1 (length h)))).
  { intros a. unfold in_degree. rewrite bind_app, bind_singleton.
    cbn [next_states term]. by rewrite app_nil_r, (targets_chain h 0 (length h)). }
  assert (Hin0 : in_degree (h ++ [term]) 0 = 0).
  { rewrite Hin, filter_Ref_out; [done|lia]. }
  assert (Hin1 : ∀ a, 0 < a < S (length h) → in_degree (h ++ [term]) a = 1).
  { intros a Ha. rewrite Hin, filter_Ref_in; [done|lia]. }
  assert (Hout1 : ∀ a, a < length h → out_degree (h ++ [term]) a = 1).
  { intros a Ha. unfold out_degree. rewrite lookup_app_l by done.
    assert (Hl : (next_states <$> h) !! a = Some [Ref (S a)]).
    { rewrite Hh. unfold chain_links.
      by rewrite list_lookup_fmap, lookup_seq_lt. }
    rewrite list_lookup_fmap in Hl. destruct (h !! a) as [st|]; [|done].
    cbn in Hl |- *. injection Hl as ->. done. }
  assert (Hterm : (h ++ [term]) !! length h = Some term).
  { by rewrite list_lookup_middle. }
  assert (Hout0 : out_degree (h ++ [term]) (length h) = 0).
  { unfold out_degree. by rewrite Hterm. }
  split; [|split].
  - intros a Ha. rewrite Hlen in Ha. destruct a as [|a]; [done|].
    rewrite Hin1 by lia. unfold curr_state. split; [done|]. by intros [=].
  - exists (length h). split; [by rewrite Hterm|].
    intros a Ha. rewrite Hlen in Ha.
    destruct (decide (a = length h)) as [->|Hne']; [done|].
    rewrite Hout1 by lia. split; [done|by intros].
  - intros a Ha Hi Ho. rewrite Hlen in Ha.
    destruct a as [|a]; [done|]. rewrite Hin1 by lia. split; [done|].
    destruct (decide (S a = length h)) as [Heq|Hne']; [by rewrite Heq in Ho|].
    apply Hout1. lia.
Qed.

(** The first construction after the class statement builds a simple path
    of [len(regex_expr) + 2] states. *)
Lemma first_instance_simple_path (p : pystr) :
  Forall (λ c, isascii c = true) p →
  ∃ h, __init__ p heap0 = (Val {| pattern := p |}, h) ∧
       simple_path h ∧ length h = length p + 2.
Proof.
  intros Hp. unfold __init__, curr_state, heap0.
  destruct (init_loop_chain p Hp [] {| cls := StartState; next_states := [] |}
              (Ref 0)) as (h & last & Hloop & Hlast & Hh & Hlen); [done..|].
  cbn [length app] in Hloop, Hlen. rewrite Hloop.
  unfold new. cbn [append_next].
  set (v := Ref (length (h ++ [last]))).
  set (term := {| cls := TerminationState; next_states := [] |}).
  replace (alter (append v) (length h) ((h ++ [last]) ++ [term]))
    with ((h ++ [append v last]) ++ [term]).
  2:{ rewrite <- !app_assoc, alter_app_r_alt by done.
      by rewrite Nat.sub_diag. }
  assert (Hl : ∀ x, length (h ++ [x]) = S (length h)).
  { intros x. rewrite length_app. cbn. lia. }
  eexists. split; [done|]. split.
  - apply chain_simple_path.
    + by destruct h.
    + rewrite fmap_app, Hh, Hl, chain_links_S. cbn [fmap list_fmap].
      unfold append, v. cbn [next_states]. by rewrite Hlast, Hl.
  - rewrite length_app, Hl, Hlen. cbn. lia.
Qed.

(** ** Characters that are not ASCII *)

(** C5. The pattern ["é"] (code point 233) is not compiled, but no error
    for the character is raised: [__init_next_state] returns [None] for
    it, [None] is appended to the start state as its next state, and the
    construction ends on [AttributeError] when it reads [next_states] of
    [None]. *)
Theorem non_ascii_pattern_raises_AttributeError :
  __init_next_state 233%N curr_state curr_state heap0 = (PyNone, heap0) ∧
  __init__ [233%N] heap0
  = (Raise AttributeError, [{| cls := StartState; next_states := [PyNone] |}]).
Proof. split; reflexivity. Qed.

(** ** One start state for every instance *)

(** C7. The graph of the first instance is a simple path, but it does not
    stay as built: [RegexFSM("b")] after [RegexFSM("a")] appends its first
    state to the [next_states] of the same start state, and the graph, now
    with two termination states, is no longer a simple path. *)
Theorem second_instance_changes_first_graph :
  ∃ fsm1 h1 fsm2 h2,
    __init__ (py "a") heap0 = (Val fsm1, h1) ∧
    __init__ (py "b") h1 = (Val fsm2, h2) ∧
    simple_path h1 ∧
    next_states <$> h1 !! 0 = Some [Ref 1] ∧
    next_states <$> h2 !! 0 = Some [Ref 1; Ref 3] ∧
    ¬ simple_path h2.
Proof.
  do 4 eexists. split; [reflexivity|]. split; [reflexivity|].
  split; [|split; [reflexivity|split; [reflexivity|]]].
  - split; [|split].
    + intros [|[|[|a]]] Ha; cbn in Ha; try lia; vm_compute;
        split; congruence.
    + exists 2. split; [reflexivity|].
      intros [|[|[|a]]] Ha; cbn in Ha; try lia; vm_compute;
        split; congruence.
    + intros [|[|[|a]]] Ha; cbn in Ha; try lia; vm_compute; intros; done.
  - intros (_ & (t & _ & Ht) & _).
    assert (H2 : 2 = t) by (apply Ht; [cbn; lia|reflexivity]).
    assert (H4 : 4 = t) by (apply Ht; [cbn; lia|reflexivity]).
    congruence.
Qed.

(** ** The demonstration pattern *)

(** C1. The pattern ["a*4.+hi"] is compiled, and [check_string] returns
    true for ["aaaaaa4uhi"] and ["4uhi"], false for ["meow"] and
    ["pupupuuuu"]. *)
Theorem demo_pattern_scenarios :
  ∃ self h,
    __init__ (py "a*4.+hi") heap0 = (Val self, h) ∧
    returns self (py "aaaaaa4uhi") true ∧
    returns self (py "4uhi") true ∧
    returns self (py "meow") false ∧
    returns self (py "pupupuuuu") false.
Proof.
  destruct (init_ascii (py "a*4.+hi") heap0) as [h Hinit].
  { repeat constructor. }
  exists {| pattern := py "a*4.+hi" |}, h. split; [exact Hinit|].
  repeat split; apply returns_iff; vm_compute; reflexivity.
Qed.

(** ** Patterns without quantifiers, compared *)

Lemma in_star_plus_false (c : char) :
  c ≠ star ∧ c ≠ plus → in_star_plus c = false.
Proof.
  intros [Hs Hp]. unfold in_star_plus.
  apply orb_false_intro; by apply N.eqb_neq.
Qed.

Lemma tokens_of_no_quantifier (p : pystr) :
  no_quantifier p → tokens_of p = (λ c, (c, [])) <$> p.
Proof.
  induction 1 as [|c p _ Hp IH]; [done|].
  rewrite tokens_of_plain, IH; [done|].
  destruct Hp as [|c' p' Hc' _]; [done|]. by apply in_star_plus_false.
Qed.

Lemma ok_spec (sym c : char) : ok sym c = true ↔ sym = dot ∨ sym = c.
Proof.
  unfold ok. rewrite orb_true_iff, !N.eqb_eq. split; intros [H|H]; auto.
Qed.

Lemma accepts_plain (p : pystr) :
  ∀ s, accepts ((λ c, (c, [])) <$> p) s = true ↔ compare_direct p s.
Proof.
  unfold compare_direct. induction p as [|c p IH]; intros s.
  - cbn. rewrite bool_decide_eq_true. split.
    + intros ->. split; [done|]. intros i c d Hc. by destruct i.
    + intros [Hlen _]. by apply nil_length_inv.
  - cbn [fmap list_fmap]. rewrite accepts_none.
    destruct s as [|d s]; [by split; [|intros []]|].
    rewrite andb_true_iff, ok_spec, IH. cbn [length]. split.
    + intros (Hcd & Hlen & Hall). split; [lia|].
      intros [|i] c' d' Hc' Hd'; cbn in Hc', Hd'; [congruence|eauto].
    + intros (Hlen & Hall). split; [by apply (Hall 0)|]. split; [lia|].
      intros i c' d' Hc' Hd'. by apply (Hall (S i)).
Qed.

(** C2. For a pattern without ['*'] and without ['+'], [check_string]
    returns true exactly when the input has the length of the pattern and
    every pattern character is ['.'] or the input character at its
    position, and returns false otherwise; the empty pattern accepts the
    empty input and rejects every other input. *)
Theorem no_quantifier_direct_comparison :
  (∀ (self : RegexFSM) (s : pystr),
     no_quantifier (pattern self) →
     (returns self s true ↔ compare_direct (pattern self) s) ∧
     (returns self s false ↔ ¬ compare_direct (pattern self) s)) ∧
  returns {| pattern := [] |} [] true ∧
  (∀ s : pystr, s ≠ [] → returns {| pattern := [] |} s false).
Proof.
  split; [|split].
  - intros self s Hp. rewrite !returns_iff, tokens_of_no_quantifier by done.
    rewrite <- accepts_plain.
    destruct (accepts _ s); split; split; congruence.
  - by apply returns_iff.
  - intros [|c s] Hs; [done|]. by apply returns_iff.
Qed.

Lemma no_quantifier_direct_comparison_witness :
  no_quantifier (py "a.c") ∧ returns {| pattern := py "a.c" |} (py "abc") true.
Proof.
  assert (H : no_quantifier (py "a.c")).
  { repeat constructor; done. }
  split; [exact H|].
  apply (proj1 no_quantifier_direct_comparison {| pattern := py "a.c" |}
           (py "abc") H).
  split; [reflexivity|].
  intros [|[|[|i]]] c d; cbn; intros [= <-] [= <-]; auto.
Defined.

(** ** Quantified atoms *)

Lemma scan_all (okp : char → bool) (s : pystr) :
  s ≠ [] → Forall (λ c, okp c = true) s →
  scan (accepts []) okp s = true.
Proof.
  intros Hs Hall. induction Hall as [|c w Hc Hw IH]; [done|].
  cbn [scan]. rewrite Hc. cbn [andb].
  destruct w as [|c' w]; [done|]. rewrite IH by done. apply orb_true_r.
Qed.

Lemma accepted_ok (X : char) (s : pystr) :
  Forall (λ c, X = dot ∨ c = X) s → Forall (λ c, ok X c = true) s.
Proof.
  intros Hs. eapply Forall_impl; [exact Hs|].
  intros c [->| ->]; apply ok_spec; by auto.
Qed.

(** C3. For an atom [X], a literal ASCII character or ['.'], the pattern
    [X*] is compiled and [check_string] returns true for the empty input
    and for every input whose characters [X] accepts: every one when [X]
    is ['.'], the character [X] itself when it is not. *)
Theorem star_accepts_repetitions (X : char) (s : pystr) :
  isascii X = true → Forall (λ c, X = dot ∨ c = X) s →
  ∃ self h,
    __init__ [X; star] heap0 = (Val self, h) ∧
    returns self [] true ∧
    returns self s true.
Proof.
  intros HX Hall%accepted_ok. destruct (init_ascii [X; star] heap0) as [h Hinit].
  { by repeat constructor. }
  exists {| pattern := [X; star] |}, h. split; [done|].
  split; [by apply returns_iff|].
  apply returns_iff.
  cbn [pattern]. change (tokens_of [X; star]) with [(X, [star])].
  rewrite accepts_star.
  destruct s as [|c w]; [done|]. rewrite scan_all by done. apply orb_true_r.
Qed.

Lemma star_accepts_repetitions_witness :
  ∃ self h,
    __init__ (py "a*") heap0 = (Val self, h) ∧
    returns self [] true ∧
    returns self (py "aaaa") true.
Proof.
  apply (star_accepts_repetitions 97%N (py "aaaa")); [reflexivity|].
  repeat constructor; right; reflexivity.
Defined.

(** C4. For an atom [X], a literal ASCII character or ['.'], the pattern
    [X+] is compiled and [check_string] returns false for the empty input
    and true for every input that is not empty and whose characters [X]
    accepts (every one when [X] is ['.'], the character [X] itself when it
    is not): for one such character, and for three. *)
Theorem plus_needs_one_repetition (X : char) (s : pystr) (c : char) :
  isascii X = true →
  s ≠ [] → Forall (λ c, X = dot ∨ c = X) s → X = dot ∨ c = X →
  ∃ self h,
    __init__ [X; plus] heap0 = (Val self, h) ∧
    returns self [] false ∧
    returns self s true ∧
    returns self [c] true ∧
    returns self [c; c; c] true.
Proof.
  intros HX Hs Hs_ok Hc. destruct (init_ascii [X; plus] heap0) as [h Hinit].
  { by repeat constructor. }
  exists {| pattern := [X; plus] |}, h. split; [done|].
  assert (Hall : ∀ w : pystr, w ≠ [] → Forall (λ c, X = dot ∨ c = X) w →
                   returns {| pattern := [X; plus] |} w true).
  { intros [|c' w] Hw Hall%accepted_ok; [done|]. apply returns_iff.
    cbn [pattern]. change (tokens_of [X; plus]) with [(X, [plus])].
    rewrite accepts_plus.
    apply Forall_cons in Hall as [-> Hall]. cbn [andb].
    destruct w as [|c'' w]; [done|]. rewrite scan_all by done. apply orb_true_r. }
  split; [|split; [by apply Hall|]].
  - apply returns_iff. cbn [pattern].
    change (tokens_of [X; plus]) with [(X, [plus])]. by rewrite accepts_plus.
  - split; (apply Hall; [done|]);
      repeat (apply Forall_cons_2; [exact Hc|]); apply Forall_nil_2.
Qed.

Lemma plus_needs_one_repetition_witness :
  ∃ self h,
    __init__ (py ".+") heap0 = (Val self, h) ∧
    returns self [] false ∧
    returns self (py "xyz") true ∧
    returns self (py "x") true ∧
    returns self (py "xxx") true.
Proof.
  apply (plus_needs_one_repetition dot (py "xyz") 120%N);
    [reflexivity|discriminate| |left; reflexivity].
  repeat constructor; left; reflexivity.
Defined.

(** ** The recursive calls of the matcher *)

Lemma forget_traced (here there : nat * nat) (run : outcome (bool * list call)) :
  forget (traced here there run) = forget run.
Proof. by destruct run as [[b log]| |]. Qed.

Lemma match_while_log_forget (fuel : nat)
    (kl : nat → outcome (bool * list call)) (k : nat → outcome bool)
    (okp : char → bool) (s : pystr) :
  (∀ j, forget (kl j) = k j) →
  ∀ indx, forget (match_while_log fuel kl okp s indx)
          = match_while fuel k okp s indx.
Proof.
  intros Hk. induction fuel as [|fuel IH]; intros indx; [done|].
  cbn [match_while_log match_while].
  destruct (indx <? length s); [|done].
  destruct (getitem s indx) as [c| |]; cbn [mbind outcome_bind]; try done.
  destruct (okp c); [|done]. rewrite <- Hk.
  destruct (kl (indx + 1)) as [[[] log]| |]; cbn; try done.
  rewrite <- IH.
  by destruct (match_while_log fuel kl okp s (indx + 1)) as [[b log']| |].
Qed.

(** The recorded run returns what [match_] returns. *)
Lemma match_log_forget (fuel : nat) (tokens : list token) (s : pystr) :
  ∀ pattern_ind str_ind,
    forget (match_log fuel tokens s pattern_ind str_ind)
    = match_ fuel tokens s pattern_ind str_ind.
Proof.
  induction fuel as [|fuel IH]; intros pi si; [done|].
  cbn [match_log match_].
  pose (recur := λ indx, traced (pi, si) (pi + 1, indx)
                           (match_log fuel tokens s (pi + 1) indx)).
  assert (Hk : ∀ j, forget (recur j) = match_ fuel tokens s (pi + 1) j).
  { intros j. unfold recur. by rewrite forget_traced. }
  assert (Hseq : ∀ indx run,
    forget ('(b, log) ← traced (pi, si) (pi + 1, indx)
                          (match_log fuel tokens s (pi + 1) indx);
            if (b : bool) then Val (true, log)
            else '(b, log') ← run; Val (b, log ++ log'))
    = (b ← match_ fuel tokens s (pi + 1) indx;
       if (b : bool) then Val true else forget run)).
  { intros indx run. rewrite <- Hk. unfold recur.
    destruct (traced _ _ _) as [[[] log]| |]; cbn; try done.
    by destruct run as [[b log']| |]. }
  destruct (pi =? length tokens); [done|].
  destruct (getitem tokens pi) as [[sym quant]| |];
    cbn [mbind outcome_bind]; try done.
  destruct (bool_decide (quant = [star])).
  { rewrite Hseq. by rewrite (match_while_log_forget _ _ _ _ _ Hk). }
  destruct (bool_decide (quant = [plus])).
  { destruct (length s <=? si); [done|].
    destruct (getitem s si) as [c| |]; cbn [mbind outcome_bind]; try done.
    destruct (negb (ok sym c)); [done|].
    rewrite Hseq. by rewrite (match_while_log_forget _ _ _ _ _ Hk). }
  destruct (si <? length s); [|done].
  destruct (getitem s si) as [c| |]; cbn [mbind outcome_bind]; try done.
  destruct (ok sym c); [|done]. apply Hk.
Qed.

Lemma traced_Val (here there : nat * nat) (run : outcome (bool * list call))
    (b : bool) (log : list call) :
  traced here there run = Val (b, log) →
  ∃ log', run = Val (b, log') ∧
          log = {| caller := here; callee := there |} :: log'.
Proof.
  destruct run as [[b' log']| |]; cbn; [|done..].
  intros [= -> <-]. by eauto.
Qed.

Lemma match_while_log_Forall (P : call → Prop) (fuel : nat)
    (k : nat → outcome (bool * list call)) (okp : char → bool) (s : pystr) :
  ∀ indx b log,
    (∀ j b' log', indx < j → k j = Val (b', log') → Forall P log') →
    match_while_log fuel k okp s indx = Val (b, log) → Forall P log.
Proof.
  induction fuel as [|fuel IH]; intros indx b log Hk; [done|].
  cbn [match_while_log]. destruct (indx <? length s); [|by intros [= _ <-]].
  destruct (getitem s indx) as [c| |]; cbn [mbind outcome_bind]; try done.
  destruct (okp c); [|by intros [= _ <-]].
  destruct (k (indx + 1)) as [[[] log1]| |] eqn:H1; cbn [mbind outcome_bind];
    try done.
  { intros [= _ <-]. apply (Hk (indx + 1) true); [lia|done]. }
  destruct (match_while_log fuel k okp s (indx + 1)) as [[b2 log2]| |] eqn:H2;
    cbn [mbind outcome_bind]; try done.
  intros [= _ <-]. apply Forall_app. split.
  - apply (Hk (indx + 1) false); [lia|done].
  - apply (IH (indx + 1) b2); [|done].
    intros j b' log' Hj. apply Hk. lia.
Qed.

Lemma match_log_advances (fuel : nat) (tokens : list token) (s : pystr) :
  ∀ pattern_ind str_ind b log,
    match_log fuel tokens s pattern_ind str_ind = Val (b, log) →
    Forall (call_advances tokens) log.
Proof.
  induction fuel as [|fuel IH]; intros pi si b log; [done|].
  cbn [match_log].
  destruct (pi =? length tokens); [by intros [= _ <-]|].
  destruct (getitem tokens pi) as [[sym quant]| |] eqn:Htok;
    cbn [mbind outcome_bind]; try done.
  apply getitem_Val in Htok.
  assert (Hrecur : ∀ j b' log',
    si ≤ j → (j = si → quant = [star]) → (quant = [] → j = si + 1) →
    traced (pi, si) (pi + 1, j) (match_log fuel tokens s (pi + 1) j)
    = Val (b', log') →
    Forall (call_advances tokens) log').
  { intros j b' log' Hle Hstar Hnone (log'' & Hrun & ->)%traced_Val.
    constructor; [|by eapply IH].
    unfold call_advances, quant_at. cbn. rewrite Htok. cbn.
    repeat split; [done|..].
    - intros Hj. by rewrite Hstar.
    - intros [= Hq]. by apply Hnone. }
  assert (Hseq : ∀ indx (run : outcome (bool * list call)),
    si ≤ indx → (indx = si → quant = [star]) → quant ≠ [] →
    (∀ b' log', run = Val (b', log') → Forall (call_advances tokens) log') →
    ('(b, log) ← traced (pi, si) (pi + 1, indx)
                   (match_log fuel tokens s (pi + 1) indx);
     if (b : bool) then Val (true, log)
     else '(b, log') ← run; Val (b, log ++ log')) = Val (b, log) →
    Forall (call_advances tokens) log).
  { intros indx run Hle Hstar Hq Hrun.
    destruct (traced _ _ _) as [[[] log1]| |] eqn:H1; cbn [mbind outcome_bind];
      try done.
    { intros [= _ <-]. by eapply Hrecur. }
    destruct run as [[b2 log2]| |]; cbn [mbind outcome_bind]; try done.
    intros [= _ <-]. apply Forall_app. split; [by eapply Hrecur|by eapply Hrun]. }
  destruct (bool_decide_reflect (quant = [star])) as [->|Hns].
  { apply Hseq; [done|done|done|].
    intros b' log'. apply match_while_log_Forall.
    intros j b'' log'' Hj. apply Hrecur; [lia|lia|done]. }
  destruct (bool_decide_reflect (quant = [plus])) as [->|Hnp].
  { destruct (length s <=? si); [by intros [= _ <-]|].
    destruct (getitem s si) as [c| |]; cbn [mbind outcome_bind]; try done.
    destruct (negb (ok sym c)); [by intros [= _ <-]|].
    apply Hseq; [lia|lia|done|].
    intros b' log'. apply match_while_log_Forall.
    intros j b'' log'' Hj. apply Hrecur; [lia|lia|done]. }
  destruct (si <? length s); [|by intros [= _ <-]].
  destruct (getitem s si) as [c| |]; cbn [mbind outcome_bind]; try done.
  destruct (ok sym c); [|by intros [= _ <-]].
  apply Hrecur; [lia|lia|done].
Qed.

(** C8 as stated fails: the call of [match] that tries no repetition of a
    ["*"] atom keeps the index of the string.  On the tokens of ["a*"] and
    the empty input, [match(0, 0)] calls [match(1, 0)]. *)
Lemma star_first_call_keeps_str_ind :
  ¬ (∀ fuel tokens s pattern_ind str_ind b log,
       match_log fuel tokens s pattern_ind str_ind = Val (b, log) →
       Forall (strictly_advances tokens) log).
Proof.
  intros H.
  specialize (H 2 (tokens_of (py "a*")) [] 0 0 true
                [{| caller := (0, 0); callee := (1, 0) |}] eq_refl).
  apply Forall_inv in H. unfold strictly_advances in H. cbn in H.
  assert (Hlt : 0 < 0) by (by apply H). lia.
Qed.

(** The recorded run ends as well, with the fuel that is enough for
    [check_string]. *)
Lemma match_log_returns (fuel : nat) (p s : pystr) :
  length p + length s < fuel →
  ∃ log, match_log fuel (tokens_of p) s 0 0
         = Val (accepts (tokens_of p) s, log).
Proof.
  intros Hfuel. pose proof (tokens_of_length p) as Hlen.
  pose proof (match_log_forget fuel (tokens_of p) s 0 0) as Hrun.
  rewrite match_accepts, !drop_0 in Hrun by lia.
  destruct (match_log fuel (tokens_of p) s 0 0) as [[b log]| |]; [|done..].
  injection Hrun as ->. by eexists.
Qed.

(** ** The matcher cuts the input by the tokens *)

Lemma accepts_other (sym : char) (quant : pystr) (tokens : list token)
    (w : pystr) :
  quant ≠ [star] → quant ≠ [plus] →
  accepts ((sym, quant) :: tokens) w
  = match w with
    | [] => false
    | c :: w => ok sym c && accepts tokens w
    end.
Proof. intros Hs Hp. cbn [accepts]. by rewrite !bool_decide_eq_false_2. Qed.

Lemma scan_iff (k : pystr → bool) (okp : char → bool) (w : pystr) :
  scan k okp w = true ↔
  ∃ u v, w = u ++ v ∧ u ≠ [] ∧ Forall (λ c, okp c = true) u ∧ k v = true.
Proof.
  induction w as [|c w IH]; cbn [scan].
  { split; [done|]. intros (u & v & Huv & Hu & _). by destruct u. }
  rewrite andb_true_iff, orb_true_iff, IH. split.
  - intros [Hc [Hk|(u & v & -> & Hu & Hall & Hk)]].
    + exists [c], w. by repeat constructor.
    + exists (c :: u), v. by repeat constructor.
  - intros (u & v & Huv & Hu & Hall & Hk).
    destruct u as [|c' u]; [done|]. injection Huv as <- ->.
    apply Forall_cons in Hall as [Hc Hall]. split; [done|].
    destruct u as [|c'' u]; [by left|]. right. by exists (c'' :: u), v.
Qed.

Lemma token_takes_star (sym : char) (w : pystr) :
  token_takes (sym, [star]) w ↔ Forall (λ c, ok sym c = true) w.
Proof.
  unfold token_takes. cbn [fst snd]. rewrite bool_decide_eq_true_2 by done.
  by split; [intros [? _]|].
Qed.

Lemma token_takes_plus (sym : char) (w : pystr) :
  token_takes (sym, [plus]) w ↔ Forall (λ c, ok sym c = true) w ∧ w ≠ [].
Proof.
  unfold token_takes. cbn [fst snd].
  rewrite bool_decide_eq_false_2 by (by intros [=]).
  by rewrite bool_decide_eq_true_2.
Qed.

Lemma token_takes_other (sym : char) (quant w : pystr) :
  quant ≠ [star] → quant ≠ [plus] →
  token_takes (sym, quant) w ↔ ∃ c, w = [c] ∧ ok sym c = true.
Proof.
  intros Hs Hp. unfold token_takes. cbn [fst snd].
  rewrite !bool_decide_eq_false_2 by done. split.
  - intros [Hall Hlen]. destruct w as [|c [|c' w]]; try done.
    exists c. split; [done|]. by apply Forall_inv in Hall.
  - intros (c & -> & Hc). by repeat constructor.
Qed.

Lemma accepts_cut_by (tokens : list token) :
  ∀ w, accepts tokens w = true ↔ cut_by tokens w.
Proof.
  unfold cut_by. induction tokens as [|[sym quant] tokens IH]; intros w.
  { cbn [accepts]. rewrite bool_decide_eq_true. split.
    - intros ->. by exists [].
    - intros (ws & <- & Hws). by apply Forall2_nil_inv_l in Hws as ->. }
  assert (Hcons : ∀ P : pystr → Prop,
    (∃ ws, concat ws = w ∧ Forall2 token_takes ((sym, quant) :: tokens) ws) ↔
    (∃ u v, w = u ++ v ∧ token_takes (sym, quant) u ∧ accepts tokens v = true)).
  { intros _. split.
    - intros (ws & <- & Hws).
      apply Forall2_cons_inv_l in Hws as (u & ws' & Hu & Hws' & ->).
      exists u, (concat ws'). split; [done|]. split; [done|].
      apply IH. by exists ws'.
    - intros (u & v & -> & Hu & (ws' & <- & Hws')%IH).
      exists (u :: ws'). split; [done|]. by constructor. }
  rewrite (Hcons (λ _, True)). clear Hcons.
  destruct (decide (quant = [star])) as [->|Hs].
  { rewrite accepts_star, orb_true_iff, scan_iff. split.
    - intros [Hacc|(u & v & -> & Hu & Hall & Hacc)].
      + exists [], w. by rewrite token_takes_star.
      + exists u, v. by rewrite token_takes_star.
    - intros (u & v & -> & Hu%token_takes_star & Hacc).
      destruct u as [|c u]; [by left|]. right. by exists (c :: u), v. }
  destruct (decide (quant = [plus])) as [->|Hp].
  { rewrite accepts_plus. split.
    - destruct w as [|c w]; [done|].
      rewrite andb_true_iff, orb_true_iff, scan_iff.
      intros [Hc [Hacc|(u & v & -> & Hu & Hall & Hacc)]].
      + exists [c], w. rewrite token_takes_plus. by repeat constructor.
      + exists (c :: u), v. rewrite token_takes_plus. by repeat constructor.
    - intros (u & v & -> & [Hall Hu]%token_takes_plus & Hacc).
      destruct u as [|c u]; [done|]. cbn [app].
      apply Forall_cons in Hall as [Hc Hall].
      rewrite andb_true_iff, orb_true_iff, scan_iff. split; [done|].
      destruct u as [|c' u]; [by left|]. right. by exists (c' :: u), v. }
  rewrite accepts_other by done. split.
  - destruct w as [|c w]; [done|]. rewrite andb_true_iff. intros [Hc Hacc].
    exists [c], w. rewrite token_takes_other by done. by eauto.
  - intros (u & v & -> & (c & -> & Hc)%token_takes_other & Hacc); [|done..].
    cbn [app]. by rewrite Hc, Hacc.
Qed.

(** X1. [check_string] returns true exactly for the inputs that can be cut
    in pieces, one for each token of the pattern in turn, every piece made
    of characters that the atom accepts: one character for a token without
    quantifier, any number for ["*"], one or more for ["+"].  It returns
    false for every other input. *)
Theorem check_string_cuts_input (self : RegexFSM) (s : pystr) :
  ∃ tokens,
    (∀ fuel, length (pattern self) < fuel →
             tokenize fuel (pattern self) 0 [] = Val tokens) ∧
    (returns self s true ↔ cut_by tokens s) ∧
    (returns self s false ↔ ¬ cut_by tokens s).
Proof.
  exists (tokens_of (pattern self)). split; [|split].
  - intros fuel Hfuel. rewrite tokenize_tokens_of by lia. by rewrite drop_0.
  - by rewrite returns_iff, accepts_cut_by.
  - rewrite returns_iff, <- accepts_cut_by.
    destruct (accepts _ s); split; congruence.
Qed.

Lemma cut_by_one (t : token) (s : pystr) : cut_by [t] s ↔ token_takes t s.
Proof.
  unfold cut_by. split.
  - intros (ws & <- & Hws).
    apply Forall2_cons_inv_l in Hws as (u & ws' & Hu & Hws' & ->).
    apply Forall2_nil_inv_l in Hws' as ->. cbn. by rewrite app_nil_r.
  - intros H. exists [s]. cbn. rewrite app_nil_r. split; [done|].
    constructor; [done|constructor].
Qed.

(** X2. The pattern [X*] accepts exactly the inputs whose characters are
    all accepted by [X], and the pattern [X+] exactly those of them that
    are not empty. *)
Theorem star_plus_accept_exactly (X : char) (s : pystr) :
  (returns {| pattern := [X; star] |} s true
   ↔ Forall (λ c, ok X c = true) s) ∧
  (returns {| pattern := [X; plus] |} s true
   ↔ Forall (λ c, ok X c = true) s ∧ s ≠ []).
Proof.
  split; rewrite returns_iff, accepts_cut_by; cbn [pattern].
  - change (tokens_of [X; star]) with [(X, [star])].
    by rewrite cut_by_one, token_takes_star.
  - change (tokens_of [X; plus]) with [(X, [plus])].
    by rewrite cut_by_one, token_takes_plus.
Qed.

Lemma tokens_of_app (p1 p2 : pystr) :
  head_quant p2 = false → tokens_of (p1 ++ p2) = tokens_of p1 ++ tokens_of p2.
Proof.
  intros Hp2.
  induction p1 as [|ch nxt rest Hq IH|ch tl Hq IH] using tokens_of_scan_ind.
  - done.
  - cbn [app]. by rewrite !tokens_of_quant, IH.
  - cbn [app]. rewrite !tokens_of_plain, IH; [done..|].
    by destruct tl.
Qed.

Lemma cut_by_app (tokens1 tokens2 : list token) (s : pystr) :
  cut_by (tokens1 ++ tokens2) s ↔
  ∃ s1 s2, s = s1 ++ s2 ∧ cut_by tokens1 s1 ∧ cut_by tokens2 s2.
Proof.
  unfold cut_by. split.
  - intros (ws & <- & Hws).
    apply Forall2_app_inv_l in Hws as (ws1 & ws2 & H1 & H2 & ->).
    exists (concat ws1), (concat ws2). rewrite concat_app. by eauto 7.
  - intros (s1 & s2 & -> & (ws1 & <- & H1) & (ws2 & <- & H2)).
    exists (ws1 ++ ws2). rewrite concat_app. split; [done|]. by apply Forall2_app.
Qed.

(** X3. When a pattern is made of two, the second not beginning with ['*']
    or ['+'], it accepts exactly the inputs made of an input that the first
    accepts and then one that the second accepts. *)
Theorem concatenated_patterns (p1 p2 s : pystr) :
  head_quant p2 = false →
  returns {| pattern := p1 ++ p2 |} s true ↔
  ∃ s1 s2, s = s1 ++ s2 ∧
           returns {| pattern := p1 |} s1 true ∧
           returns {| pattern := p2 |} s2 true.
Proof.
  intros Hp2. rewrite returns_iff, accepts_cut_by. cbn [pattern].
  rewrite tokens_of_app, cut_by_app by done.
  by setoid_rewrite returns_iff; setoid_rewrite accepts_cut_by.
Qed.

Lemma concatenated_patterns_witness :
  head_quant (py "b") = false ∧
  returns {| pattern := py "a*" ++ py "b" |} (py "aab") true.
Proof.
  split; [reflexivity|].
  apply (concatenated_patterns (py "a*") (py "b") (py "aab") eq_refl).
  exists (py "aa"), (py "b").
  split; [reflexivity|]. split; apply returns_iff; vm_compute; reflexivity.
Defined.

(** X4. An input that [check_string] accepts has one character at least
    for every token of the pattern that is not starred. *)
Theorem accepted_input_length (self : RegexFSM) (s : pystr) :
  returns self s true →
  length (needs_char (tokens_of (pattern self))) ≤ length s.
Proof.
  rewrite returns_iff, accepts_cut_by. intros (ws & <- & Hws).
  unfold needs_char. induction Hws as [|[sym quant] u tokens ws Hu _ IH]; [done|].
  cbn [concat]. rewrite length_app.
  destruct (decide (quant = [star])) as [->|Hs].
  { rewrite filter_cons_False by (cbn; auto). lia. }
  rewrite filter_cons_True by done. cbn [length].
  assert (0 < length u); [|lia].
  destruct (decide (quant = [plus])) as [->|Hp].
  - apply token_takes_plus in Hu as [_ Hu]. destruct u; [done|cbn; lia].
  - apply token_takes_other in Hu as (c & -> & _); [cbn; lia|done..].
Qed.

Lemma accepted_input_length_witness :
  returns {| pattern := py "a*4.+hi" |} (py "4uhi") true ∧
  length (needs_char (tokens_of (py "a*4.+hi"))) ≤ length (py "4uhi").
Proof.
  assert (H : returns {| pattern := py "a*4.+hi" |} (py "4uhi") true).
  { apply returns_iff. vm_compute. reflexivity. }
  split; [exact H|].
  exact (accepted_input_length {| pattern := py "a*4.+hi" |} (py "4uhi") H).
Defined.

(** ** What the tokenizer keeps *)

Lemma tokens_of_quant_ok (p : pystr) : Forall quant_ok (tokens_of p).
Proof.
  induction p as [|ch nxt rest Hq IH|ch tl Hq IH] using tokens_of_scan_ind.
  - constructor.
  - rewrite tokens_of_quant by done. constructor; [|done].
    unfold quant_ok, in_star_plus in *. cbn [snd].
    apply orb_true_iff in Hq as [->%N.eqb_eq| ->%N.eqb_eq]; auto.
  - rewrite tokens_of_plain by done. constructor; [|done]. by left.
Qed.

Lemma tokens_of_length_half (p : pystr) : length p ≤ 2 * length (tokens_of p).
Proof.
  induction p as [|ch nxt rest Hq IH|ch tl Hq IH] using tokens_of_scan_ind.
  - done.
  - rewrite tokens_of_quant by done. cbn [length]. lia.
  - rewrite tokens_of_plain by done. cbn [length]. lia.
Qed.

(** X5. The tokenizer ends on every pattern, with fuel above
    [len(pattern)]; every token it returns has the quantifier [""], ["*"]
    or ["+"], and there are as many tokens as characters at most and half
    as many at least. *)
Theorem tokenize_well_formed (p : pystr) :
  ∃ tokens,
    (∀ fuel, length p < fuel → tokenize fuel p 0 [] = Val tokens) ∧
    Forall quant_ok tokens ∧
    length tokens ≤ length p ≤ 2 * length tokens.
Proof.
  exists (tokens_of p). split; [|split; [|split]].
  - intros fuel Hfuel. rewrite tokenize_tokens_of by lia. by rewrite drop_0.
  - apply tokens_of_quant_ok.
  - apply tokens_of_length.
  - apply tokens_of_length_half.
Qed.

Lemma tokens_of_head (p : pystr) (t : token) :
  tokens_of p !! 0 = Some t → ∃ tl, p = t.1 :: tl.
Proof.
  destruct p as [|ch [|nxt rest]]; cbn [tokens_of]; [done|..].
  - intros [= <-]. by eexists.
  - destruct (in_star_plus nxt); intros [= <-]; by eexists.
Qed.

(** X6. A ['*'] or ['+'] is the atom of a token only at the start of the
    pattern or after a token that has a quantifier: the token before it is
    never one without quantifier. *)
Theorem quantifier_atom_follows_quantifier (p : pystr) :
  ∃ tokens,
    (∀ fuel, length p < fuel → tokenize fuel p 0 [] = Val tokens) ∧
    ∀ i (t t' : token),
      tokens !! i = Some t → tokens !! S i = Some t' →
      in_star_plus t'.1 = true → t.2 ≠ [].
Proof.
  exists (tokens_of p). split.
  { intros fuel Hfuel. rewrite tokenize_tokens_of by lia. by rewrite drop_0. }
  induction p as [|ch nxt rest Hq IH|ch tl Hq IH] using tokens_of_scan_ind.
  - done.
  - rewrite tokens_of_quant by done. intros [|i] t t'; cbn.
    + by intros [= <-].
    + apply IH.
  - rewrite tokens_of_plain by done. intros [|i] t t'; cbn.
    + intros _ (tl' & ->)%tokens_of_head Ht'. cbn in Hq. congruence.
    + apply IH.
Qed.

(** ** The indices of the recursive calls *)

Lemma match_while_log_Forall_range (P : call → Prop) (fuel : nat)
    (k : nat → outcome (bool * list call)) (okp : char → bool) (s : pystr) :
  ∀ indx b log,
    (∀ j b' log', indx < j ≤ length s → k j = Val (b', log') → Forall P log') →
    match_while_log fuel k okp s indx = Val (b, log) → Forall P log.
Proof.
  induction fuel as [|fuel IH]; intros indx b log Hk; [done|].
  cbn [match_while_log].
  destruct (Nat.ltb_spec indx (length s)) as [Hlt|Hge]; [|by intros [= _ <-]].
  destruct (getitem s indx) as [c| |]; cbn [mbind outcome_bind]; try done.
  destruct (okp c); [|by intros [= _ <-]].
  destruct (k (indx + 1)) as [[[] log1]| |] eqn:H1; cbn [mbind outcome_bind];
    try done.
  { intros [= _ <-]. apply (Hk (indx + 1) true); [lia|done]. }
  destruct (match_while_log fuel k okp s (indx + 1)) as [[b2 log2]| |] eqn:H2;
    cbn [mbind outcome_bind]; try done.
  intros [= _ <-]. apply Forall_app. split.
  - apply (Hk (indx + 1) false); [lia|done].
  - apply (IH (indx + 1) b2); [|done].
    intros j b' log' Hj. apply Hk. lia.
Qed.

Lemma match_log_in_range (fuel : nat) (tokens : list token) (s : pystr) :
  ∀ pattern_ind str_ind b log,
    pattern_ind ≤ length tokens → str_ind ≤ length s →
    match_log fuel tokens s pattern_ind str_ind = Val (b, log) →
    Forall (call_in_range tokens s) log.
Proof.
  induction fuel as [|fuel IH]; intros pi si b log Hpi Hsi; [done|].
  cbn [match_log].
  destruct (Nat.eqb_spec pi (length tokens)) as [_|Hne]; [by intros [= _ <-]|].
  destruct (getitem tokens pi) as [[sym quant]| |];
    cbn [mbind outcome_bind]; try done.
  assert (Hrecur : ∀ j b' log', j ≤ length s →
    traced (pi, si) (pi + 1, j) (match_log fuel tokens s (pi + 1) j)
    = Val (b', log') →
    Forall (call_in_range tokens s) log').
  { intros j b' log' Hj (log'' & Hrun & ->)%traced_Val.
    constructor; [|eapply IH; [| |done]; lia].
    unfold call_in_range. cbn. lia. }
  assert (Hseq : ∀ indx (run : outcome (bool * list call)),
    indx ≤ length s →
    (∀ b' log', run = Val (b', log') → Forall (call_in_range tokens s) log') →
    ('(b, log) ← traced (pi, si) (pi + 1, indx)
                   (match_log fuel tokens s (pi + 1) indx);
     if (b : bool) then Val (true, log)
     else '(b, log') ← run; Val (b, log ++ log')) = Val (b, log) →
    Forall (call_in_range tokens s) log).
  { intros indx run Hle Hrun.
    destruct (traced _ _ _) as [[[] log1]| |] eqn:H1; cbn [mbind outcome_bind];
      try done.
    { intros [= _ <-]. by eapply Hrecur. }
    destruct run as [[b2 log2]| |]; cbn [mbind outcome_bind]; try done.
    intros [= _ <-]. apply Forall_app. split; [by eapply Hrecur|by eapply Hrun]. }
  destruct (bool_decide (quant = [star])).
  { apply Hseq; [done|].
    intros b' log'. apply match_while_log_Forall_range.
    intros j b'' log'' Hj. apply Hrecur. lia. }
  destruct (bool_decide (quant = [plus])).
  { destruct (Nat.leb_spec (length s) si) as [_|Hlt]; [by intros [= _ <-]|].
    destruct (getitem s si) as [c| |]; cbn [mbind outcome_bind]; try done.
    destruct (negb (ok sym c)); [by intros [= _ <-]|].
    apply Hseq; [lia|].
    intros b' log'. apply match_while_log_Forall_range.
    intros j b'' log'' Hj. apply Hrecur. lia. }
  destruct (Nat.ltb_spec si (length s)) as [Hlt|_]; [|by intros [= _ <-]].
  destruct (getitem s si) as [c| |]; cbn [mbind outcome_bind]; try done.
  destruct (ok sym c); [|by intros [= _ <-]].
  apply Hrecur. lia.
Qed.

(** X7. In a run of [check_string], [match] is never called with an index
    after the end: every recursive call has [pattern_ind <= len(tokens)]
    and [str_ind <= len(s)]. *)
Theorem recursive_calls_in_range (fuel : nat) (self : RegexFSM) (s : pystr)
    (tokens : list token) (b : bool) (log : list call) :
  tokenize fuel (pattern self) 0 [] = Val tokens →
  match_log fuel tokens s 0 0 = Val (b, log) →
  check_string fuel self s = Val b ∧ Forall (call_in_range tokens s) log.
Proof.
  intros Htok Hrun. split.
  - unfold check_string. rewrite Htok. cbn [mbind outcome_bind].
    by rewrite <- match_log_forget, Hrun.
  - eapply match_log_in_range; [| |done]; lia.
Qed.

Lemma recursive_calls_in_range_witness :
  check_string 8 {| pattern := py "a+b" |} (py "aab") = Val true ∧
  Forall (call_in_range (tokens_of (py "a+b")) (py "aab"))
    [{| caller := (0, 0); callee := (1, 1) |};
     {| caller := (0, 0); callee := (1, 2) |};
     {| caller := (1, 2); callee := (2, 3) |}].
Proof.
  apply (recursive_calls_in_range 8 {| pattern := py "a+b" |} (py "aab")
           (tokens_of (py "a+b")) true); reflexivity.
Defined.

(** ** The heap after a construction *)

Lemma init_next_state_class (c : char) (prev tmp : value) (h : heap) :
  isascii c = true → __init_next_state c prev tmp h = new (class_of c tmp) h.
Proof.
  intros Hc. unfold __init_next_state, class_of. rewrite Hc.
  by destruct (c =? dot)%N, (c =? star)%N, (c =? plus)%N.
Qed.

Lemma alter_last (f : State → State) (h : heap) (st : State) :
  alter f (length h) (h ++ [st]) = h ++ [f st].
Proof. rewrite alter_app_r_alt by done. by rewrite Nat.sub_diag. Qed.

(** The loop and the statements after it, from the state at [b]: the
    state at [b] gets the first new object as a next state, and the new
    objects are [new_states]. *)
Lemma init_loop_builds (q : pystr) :
  Forall (λ c, isascii c = true) q →
  ∀ b (h : heap), b < length h →
    ∃ b' h',
      init_loop q (Ref b) (Ref b) h = (Val (Ref b'), h') ∧
      alter (append (Ref (length h'))) b'
            (h' ++ [{| cls := TerminationState; next_states := [] |}])
      = alter (append (Ref (length h))) b h ++ new_states (length h) (Ref b) q.
Proof.
  induction 1 as [|c q Hc _ IH]; intros b h Hb; cbn [init_loop new_states].
  { exists b, h. split; [done|]. by rewrite alter_app_l. }
  rewrite init_next_state_class by done. unfold new. cbn [append_next].
  rewrite alter_app_l by done.
  set (h1 := alter (append (Ref (length h))) b h).
  assert (Hlen1 : length h1 = length h) by apply length_alter.
  destruct (IH (length h) (h1 ++ [{| cls := class_of c (Ref b);
                                     next_states := [] |}]))
    as (b' & h' & -> & Hh').
  { rewrite length_app, Hlen1. cbn. lia. }
  exists b', h'. split; [done|]. rewrite Hh'.
  rewrite length_app, Hlen1, <- Hlen1, alter_last, Hlen1. cbn [length].
  rewrite <- app_assoc, Nat.add_1_r. done.
Qed.

Lemma init_after_loop (p : pystr) (h : heap) :
  __init__ p h = after_loop p (init_loop p curr_state curr_state h).
Proof. reflexivity. Qed.

Lemma init_heap (p : pystr) (h : heap) :
  Forall (λ c, isascii c = true) p → 0 < length h →
  __init__ p h
  = (Val {| pattern := p |},
     alter (append (Ref (length h))) 0 h ++ new_states (length h) (Ref 0) p).
Proof.
  intros Hp Hh. unfold __init__, curr_state.
  destruct (init_loop_builds p Hp 0 h Hh) as (b' & h' & -> & Hh').
  unfold new. cbn [append_next]. by rewrite Hh'.
Qed.

(** X8. In a heap that holds the start state, the construction for a
    pattern of ASCII characters succeeds and leaves the heap as it was but
    for one more next state of the start state, the first new object, and
    [len(p) + 1] new objects: for each character a state of the class that
    the character gives, wrapping the state made just before it when the
    character is ['*'] or ['+'], with the next new object as its one next
    state, and a termination state with no next state. *)
Theorem init_builds (p : pystr) (h : heap) :
  Forall (λ c, isascii c = true) p → 0 < length h →
  __init__ p h
  = (Val {| pattern := p |},
     alter (append (Ref (length h))) 0 h ++ new_states (length h) (Ref 0) p).
Proof. apply init_heap. Qed.

Lemma init_builds_witness :
  Forall (λ c, isascii c = true) (py "a*.") ∧ 0 < length heap0 ∧
  __init__ (py "a*.") heap0
  = (Val {| pattern := py "a*." |},
     [{| cls := StartState; next_states := [Ref 1] |};
      {| cls := AsciiState 97; next_states := [Ref 2] |};
      {| cls := StarState (Ref 1); next_states := [Ref 3] |};
      {| cls := DotState; next_states := [Ref 4] |};
      {| cls := TerminationState; next_states := [] |}]).
Proof.
  assert (H : Forall (λ c, isascii c = true) (py "a*.")) by (by repeat constructor).
  split; [exact H|]. split; [cbn; lia|].
  exact (init_builds (py "a*.") heap0 H (Nat.lt_0_succ 0)).
Defined.

Lemma init_next_state_cases (c : char) (prev tmp : value) (h : heap) :
  (isascii c = true ∧
   ∃ k, __init_next_state c prev tmp h
        = (Ref (length h), h ++ [{| cls := k; next_states := [] |}])) ∨
  (isascii c = false ∧ __init_next_state c prev tmp h = (PyNone, h)).
Proof.
  destruct (isascii c) eqn:Hc.
  - left. split; [done|]. rewrite init_next_state_class by done. by eexists.
  - right. split; [done|]. by apply init_next_state_non_ascii.
Qed.

(** Whatever the pattern, the loop and the statements after it leave an
    object that is not [prev_state] as it is. *)
Lemma after_loop_frame (p0 q : pystr) :
  ∀ prev tmp (h : heap) i, i < length h → prev ≠ Ref i →
    (after_loop p0 (init_loop q prev tmp h)).2 !! i = h !! i.
Proof.
  induction q as [|c q IH]; intros prev tmp h i Hi Hprev; cbn [init_loop].
  { destruct prev as [|a]; [done|]. cbn.
    rewrite list_lookup_alter_ne by congruence. by apply lookup_app_l. }
  destruct (init_next_state_cases c prev tmp h)
    as [[_ [k ->]]|[_ ->]]; (destruct prev as [|a]; cbn [append_next]).
  - cbn. by apply lookup_app_l.
  - rewrite IH.
    + rewrite list_lookup_alter_ne by congruence. by apply lookup_app_l.
    + rewrite length_alter, length_app. lia.
    + intros [= Heq]. lia.
  - done.
  - rewrite IH; [|by rewrite length_alter|done].
    apply list_lookup_alter_ne. congruence.
Qed.

Lemma init_frame (p : pystr) (h : heap) (i : nat) :
  0 < i < length h → (__init__ p h).2 !! i = h !! i.
Proof.
  intros [Hi0 Hi]. rewrite init_after_loop. apply after_loop_frame; [done|].
  unfold curr_state. intros [= <-]. lia.
Qed.

(** X9. A construction, ended or failed, changes no object that was in
    the heap before it, but the start state. *)
Theorem init_changes_only_start (p : pystr) (h : heap) (i : nat) :
  0 < i < length h → (__init__ p h).2 !! i = h !! i.
Proof. apply init_frame. Qed.

Lemma init_changes_only_start_witness :
  0 < 1 < length (__init__ (py "a") heap0).2 ∧
  (__init__ (py "b") (__init__ (py "a") heap0).2).2 !! 1
  = (__init__ (py "a") heap0).2 !! 1.
Proof.
  assert (H : 0 < 1 < length (__init__ (py "a") heap0).2) by (vm_compute; lia).
  split; [exact H|].
  exact (init_changes_only_start (py "b") (__init__ (py "a") heap0).2 1 H).
Defined.

Lemma init_start_after (p : pystr) (h : heap) (st : State) :
  h !! 0 = Some st →
  (__init__ p h).2 !! 0 = Some (append (first_next p h) st).
Proof.
  intros Hst. pose proof (lookup_lt_Some _ _ _ Hst) as Hlen.
  rewrite init_after_loop. unfold curr_state.
  destruct p as [|c q]; cbn [init_loop first_next].
  { cbn. by rewrite list_lookup_alter_eq, lookup_app_l, Hst. }
  destruct (init_next_state_cases c (Ref 0) (Ref 0) h)
    as [[-> [k ->]]|[-> ->]]; cbn [append_next].
  - rewrite after_loop_frame.
    + by rewrite list_lookup_alter_eq, lookup_app_l, Hst.
    + rewrite length_alter, length_app. lia.
    + intros [= Heq]. lia.
  - rewrite after_loop_frame; [|by rewrite length_alter|done].
    by rewrite list_lookup_alter_eq, Hst.
Qed.

(** X10. A construction, ended or failed, appends one value to the
    [next_states] of the start state of the class: the first object it
    makes, or [None] when the first character is not ASCII. *)
Theorem init_appends_first_next (p : pystr) (h : heap) (st : State) :
  h !! 0 = Some st →
  (__init__ p h).2 !! 0 = Some (append (first_next p h) st).
Proof. apply init_start_after. Qed.

Lemma init_appends_first_next_witness :
  heap0 !! 0 = Some {| cls := StartState; next_states := [] |} ∧
  (__init__ [233%N] heap0).2 !! 0
  = Some {| cls := StartState; next_states := [PyNone] |}.
Proof.
  split; [reflexivity|].
  exact (init_appends_first_next [233%N] heap0 _ eq_refl).
Defined.

Lemma construct_all_start (ps : list pystr) :
  ∀ (h : heap) st, h !! 0 = Some st →
    ∃ st', construct_all ps h !! 0 = Some st' ∧ cls st' = cls st ∧
           length (next_states st') = length (next_states st) + length ps.
Proof.
  unfold construct_all.
  induction ps as [|p ps IH]; intros h st Hst; cbn [foldl].
  { exists st. by rewrite Nat.add_0_r. }
  destruct (IH _ _ (init_start_after p h st Hst)) as (st' & -> & Hcls & Hlen).
  exists st'. split; [done|]. split; [done|].
  rewrite Hlen. cbn [append next_states length]. rewrite length_app. cbn. lia.
Qed.

(** X11. The start state of the class has one next state for each
    [RegexFSM(p)] that was run, ended or failed: after the constructions
    for the patterns [ps] in a new class, as many as [ps] has patterns. *)
Theorem start_state_counts_constructions (ps : list pystr) :
  out_degree (construct_all ps heap0) 0 = length ps ∧
  cls <$> construct_all ps heap0 !! 0 = Some StartState.
Proof.
  destruct (construct_all_start ps heap0 _ eq_refl) as (st' & Hst' & Hcls & Hlen).
  unfold out_degree. rewrite Hst'. cbn. by rewrite Hcls, Hlen.
Qed.

(** X12. The first construction in a new class, for a pattern of ASCII
    characters, builds a simple path of [len(p) + 2] states. *)
Theorem fresh_class_simple_path (p : pystr) :
  Forall (λ c, isascii c = true) p →
  ∃ h, __init__ p heap0 = (Val {| pattern := p |}, h) ∧
       simple_path h ∧ length h = length p + 2.
Proof. apply first_instance_simple_path. Qed.

Lemma fresh_class_simple_path_witness :
  Forall (λ c, isascii c = true) (py "a*4.+hi") ∧
  ∃ h, __init__ (py "a*4.+hi") heap0 = (Val {| pattern := py "a*4.+hi" |}, h) ∧
       simple_path h ∧ length h = length (py "a*4.+hi") + 2.
Proof.
  assert (H : Forall (λ c, isascii c = true) (py "a*4.+hi")).
  { by repeat constructor. }
  split; [exact H|]. exact (fresh_class_simple_path (py "a*4.+hi") H).
Defined.

(** X13. A construction succeeds, with the pattern kept in the instance,
    when every character of the pattern is ASCII, and ends on
    [AttributeError] when one is not, in any heap. *)
Theorem init_succeeds_iff_ascii (p : pystr) (h : heap) :
  (Forall (λ c, isascii c = true) p →
   (__init__ p h).1 = Val {| pattern := p |}) ∧
  (Exists (λ c, isascii c = false) p →
   (__init__ p h).1 = Raise AttributeError).
Proof.
  split.
  - intros Hp. by destruct (init_ascii p h Hp) as [h' ->].
  - apply init_non_ascii.
Qed.

Lemma new_states_length (p : pystr) :
  ∀ a prev, length (new_states a prev p) = S (length p).
Proof. induction p as [|c p IH]; intros a prev; cbn; [done|]. by rewrite IH. Qed.

Lemma new_states_last (p : pystr) :
  ∀ a prev, new_states a prev p !! length p
            = Some {| cls := TerminationState; next_states := [] |}.
Proof. induction p as [|c p IH]; intros a prev; cbn; [done|]. apply IH. Qed.

(** X14. After two constructions in a new class, for patterns of ASCII
    characters, the graph is not a simple path: it has the termination
    states of both, none with a next state. *)
Theorem second_instance_never_simple_path (p q : pystr) :
  Forall (λ c, isascii c = true) p → Forall (λ c, isascii c = true) q →
  ¬ simple_path (construct_all [p; q] heap0).
Proof.
  intros Hp Hq. unfold construct_all. cbn [foldl].
  rewrite (init_heap p heap0 Hp (Nat.lt_0_succ 0)). cbn [snd].
  set (h1 := alter _ 0 heap0 ++ new_states (length heap0) (Ref 0) p).
  assert (Hlen1 : length h1 = length p + 2).
  { unfold h1. rewrite length_app, new_states_length. cbn. lia. }
  assert (Hterm1 : h1 !! (length p + 1)
                   = Some {| cls := TerminationState; next_states := [] |}).
  { unfold h1. rewrite lookup_app_r by (cbn; lia).
    replace (length p + 1 - length (alter _ 0 heap0)) with (length p)
      by (cbn; lia).
    apply new_states_last. }
  assert (Hout1 : out_degree (__init__ q h1).2 (length p + 1) = 0).
  { unfold out_degree. rewrite init_frame by lia. by rewrite Hterm1. }
  assert (Hout2 : out_degree (__init__ q h1).2 (length h1 + length q) = 0).
  { unfold out_degree. rewrite init_heap by (done || lia). cbn [snd].
    rewrite lookup_app_r by (rewrite length_alter; lia).
    rewrite length_alter, Nat.add_comm, Nat.add_sub. by rewrite new_states_last. }
  assert (Hlen2 : length (__init__ q h1).2 = length h1 + length q + 1).
  { rewrite init_heap by (done || lia). cbn [snd].
    rewrite length_app, length_alter, new_states_length. lia. }
  intros (_ & (t & _ & Ht) & _).
  assert (length p + 1 = t) by (apply Ht; [lia|done]).
  assert (length h1 + length q = t) by (apply Ht; [lia|done]).
  lia.
Qed.

Lemma second_instance_never_simple_path_witness :
  Forall (λ c, isascii c = true) (py "a") ∧
  Forall (λ c, isascii c = true) (py "b") ∧
  ¬ simple_path (construct_all [py "a"; py "b"] heap0).
Proof.
  assert (Ha : Forall (λ c, isascii c = true) (py "a")) by (by repeat constructor).
  assert (Hb : Forall (λ c, isascii c = true) (py "b")) by (by repeat constructor).
  split; [exact Ha|]. split; [exact Hb|].
  exact (second_instance_never_simple_path (py "a") (py "b") Ha Hb).
Defined.

(** ** What the states of the chain accept *)

Lemma new_states_lookup (p : pystr) :
  ∀ a prev i c, p !! i = Some c →
    new_states a prev p !! i
    = Some {| cls := class_of c (match i with O => prev | S j => Ref (a + j) end);
              next_states := [Ref (S (a + i))] |}.
Proof.
  induction p as [|c' p IH]; intros a prev [|i] c Hc; cbn in Hc |- *; try done.
  - injection Hc as ->. by rewrite Nat.add_0_r.
  - rewrite (IH _ _ _ _ Hc). do 3 f_equal.
    + destruct i as [|j]; f_equal; lia.
    + f_equal. lia.
Qed.

Lemma class_of_atom (c : char) (prev : value) :
  in_star_plus c = false →
  (c = dot ∧ class_of c prev = DotState) ∨
  (c ≠ dot ∧ class_of c prev = AsciiState c).
Proof.
  unfold in_star_plus, class_of. intros [Hs Hp]%orb_false_elim.
  rewrite Hs, Hp. destruct (N.eqb_spec c dot); by auto.
Qed.

Lemma class_of_quant (c : char) (prev : value) :
  in_star_plus c = true →
  class_of c prev = StarState prev ∨ class_of c prev = PlusState prev.
Proof.
  unfold in_star_plus, class_of.
  intros [->%N.eqb_eq| ->%N.eqb_eq]%orb_true_iff; by auto.
Qed.

(** The state made for the character at [i], in the heap after the
    construction, accepts what the nearest atom accepts. *)
Lemma check_self_built (p : pystr) (h : heap) (st : State) (ch : char) :
  Forall (λ c, isascii c = true) p → h !! 0 = Some st → cls st = StartState →
  ∀ i fuel, i < length p → i + 1 < fuel →
    check_self fuel (__init__ p h).2 (Ref (length h + i)) ch
    = Val (graph_ok p i ch).
Proof.
  intros Hp Hst Hcls. pose proof (lookup_lt_Some _ _ _ Hst) as Hlen.
  rewrite init_heap by done. cbn [snd].
  set (H := alter _ 0 h ++ new_states (length h) (Ref 0) p).
  assert (Hstart : ∀ fuel, 0 < fuel → check_self fuel H (Ref 0) ch = Val false).
  { intros [|fuel] Hfuel; [lia|]. cbn [check_self]. unfold H.
    rewrite lookup_app_l by (rewrite length_alter; lia).
    rewrite list_lookup_alter_eq, Hst. cbn. by rewrite Hcls. }
  assert (Hlook : ∀ i c, p !! i = Some c →
    H !! (length h + i)
    = Some {| cls := class_of c (match i with O => Ref 0 | S j => Ref (length h + j) end);
              next_states := [Ref (S (length h + i))] |}).
  { intros i c Hc. unfold H.
    rewrite lookup_app_r by (rewrite length_alter; lia).
    rewrite length_alter. replace (length h + i - length h) with i by lia.
    by apply new_states_lookup. }
  induction i as [|i IH]; intros fuel Hi Hfuel.
  - destruct (lookup_lt_is_Some_2 p 0 Hi) as [c Hc].
    destruct fuel as [|fuel]; [lia|]. cbn [check_self].
    rewrite (Hlook 0 c Hc). cbn [cls]. unfold graph_ok. cbn [nearest_atom].
    rewrite Hc. destruct (in_star_plus c) eqn:Hq.
    + destruct (class_of_quant c (Ref 0) Hq) as [-> | ->]; apply Hstart; lia.
    + destruct (class_of_atom c (Ref 0) Hq) as [[-> ->]|[Hne ->]]; [done|].
      unfold ok. by apply N.eqb_neq in Hne as ->.
  - destruct (lookup_lt_is_Some_2 p (S i) Hi) as [c Hc].
    destruct fuel as [|fuel]; [lia|]. cbn [check_self].
    rewrite (Hlook (S i) c Hc). cbn [cls]. unfold graph_ok. cbn [nearest_atom].
    rewrite Hc. destruct (in_star_plus c) eqn:Hq.
    + destruct (class_of_quant c (Ref (length h + i)) Hq) as [-> | ->];
        apply IH; lia.
    + destruct (class_of_atom c (Ref (length h + i)) Hq) as [[-> ->]|[Hne ->]];
        [done|].
      unfold ok. by apply N.eqb_neq in Hne as ->.
Qed.

(** X15. In the heap after a construction for a pattern of ASCII
    characters, [check_self] of the state made for the character at [i]
    returns what [ok] gives for the nearest atom at [i] or before it: a
    state for ['*'] or ['+'] accepts as the state before it, a chain of
    them as the atom that they follow, and nothing when they follow the
    start state. *)
Theorem built_state_accepts_nearest_atom (p : pystr) (h : heap) (st : State)
    (ch : char) (i fuel : nat) :
  Forall (λ c, isascii c = true) p → h !! 0 = Some st → cls st = StartState →
  i < length p → i + 1 < fuel →
  check_self fuel (__init__ p h).2 (Ref (length h + i)) ch
  = Val (graph_ok p i ch).
Proof. intros Hp Hst Hcls. by apply check_self_built with st. Qed.

Lemma built_state_accepts_nearest_atom_witness :
  Forall (λ c, isascii c = true) (py "a**") ∧
  check_self 4 (__init__ (py "a**") heap0).2 (Ref 3) 97%N = Val true ∧
  check_self 4 (__init__ (py "a**") heap0).2 (Ref 3) 42%N = Val false.
Proof.
  assert (H : Forall (λ c, isascii c = true) (py "a**")) by (by repeat constructor).
  split; [exact H|]. split.
  - exact (built_state_accepts_nearest_atom (py "a**") heap0 _ 97%N 2 4
             H eq_refl eq_refl (le_n 3) (le_n 4)).
  - exact (built_state_accepts_nearest_atom (py "a**") heap0 _ 42%N 2 4
             H eq_refl eq_refl (le_n 3) (le_n 4)).
Defined.

(** X16. The state of a quantifier that follows an atom [X] accepts what
    [ok] accepts for [X], as the matcher does for the token of [X]; the
    state of a ['*'] or ['+'] that begins the pattern accepts no
    character. *)
Theorem quantifier_state_accepts (p : pystr) (h : heap) (st : State)
    (ch : char) (fuel : nat) :
  Forall (λ c, isascii c = true) p → h !! 0 = Some st → cls st = StartState →
  length p < fuel →
  (∀ i X q, p !! i = Some X → p !! S i = Some q →
            in_star_plus X = false → in_star_plus q = true →
            check_self fuel (__init__ p h).2 (Ref (length h + S i)) ch
            = Val (ok X ch)) ∧
  (∀ q, p !! 0 = Some q → in_star_plus q = true →
        check_self fuel (__init__ p h).2 (Ref (length h)) ch = Val false).
Proof.
  intros Hp Hst Hcls Hfuel. split.
  - intros i X q HX Hq HXa Hqq.
    pose proof (lookup_lt_Some _ _ _ Hq) as Hi.
    rewrite (check_self_built p h st ch Hp Hst Hcls (S i)) by lia.
    unfold graph_ok. cbn [nearest_atom]. rewrite Hq, Hqq.
    destruct i as [|j]; cbn [nearest_atom]; by rewrite HX, HXa.
  - intros q Hq Hqq. pose proof (lookup_lt_Some _ _ _ Hq) as Hi.
    rewrite <- (Nat.add_0_r (length h)).
    rewrite (check_self_built p h st ch Hp Hst Hcls 0) by lia.
    unfold graph_ok. cbn [nearest_atom]. by rewrite Hq, Hqq.
Qed.

Lemma quantifier_state_accepts_witness :
  Forall (λ c, isascii c = true) (py ".+") ∧
  check_self 3 (__init__ (py ".+") heap0).2 (Ref 2) 120%N = Val true.
Proof.
  assert (H : Forall (λ c, isascii c = true) (py ".+")) by (by repeat constructor).
  split; [exact H|].
  exact (proj1 (quantifier_state_accepts (py ".+") heap0 _ 120%N 3
                  H eq_refl eq_refl (le_n 3))
               0 dot plus eq_refl eq_refl eq_refl eq_refl).
Defined.

(** ** The next state *)

Lemma nearest_atom_out (p : pystr) (i : nat) :
  length p ≤ i → nearest_atom p i = None.
Proof.
  intros Hi. destruct i; cbn [nearest_atom]; by rewrite lookup_ge_None_2.
Qed.

Lemma fresh_heap (p : pystr) :
  Forall (λ c, isascii c = true) p →
  (__init__ p heap0).2
  = {| cls := StartState; next_states := [Ref 1] |} :: new_states 1 (Ref 0) p.
Proof. intros Hp. by rewrite init_heap by (done || cbn; lia). Qed.

(** From the state at [a] of the first chain, [check_next] goes to the
    state at [a + 1] when this one accepts the character, and raises
    otherwise. *)
Lemma check_next_fresh (p : pystr) (ch : char) (a fuel : nat) :
  Forall (λ c, isascii c = true) p → a ≤ length p + 1 → length p < fuel →
  check_next fuel (__init__ p heap0).2 (Ref a) ch
  = if graph_ok p a ch then Next (Ref (S a)) else Rejected.
Proof.
  intros Hp Ha Hfuel.
  assert (Hself : ∀ i, i < length p →
    check_self fuel (__init__ p heap0).2 (Ref (S i)) ch = Val (graph_ok p i ch)).
  { intros i Hi.
    apply (check_self_built p heap0 _ ch Hp eq_refl eq_refl i fuel); lia. }
  assert (Hterm : check_self fuel (__init__ p heap0).2 (Ref (S (length p))) ch
                  = Val false).
  { destruct fuel as [|fuel]; [lia|]. cbn [check_self].
    rewrite fresh_heap by done. rewrite lookup_cons.
    by rewrite new_states_last. }
  assert (Hout : ∀ i, length p ≤ i → graph_ok p i ch = false).
  { intros i Hi. unfold graph_ok. by rewrite nearest_atom_out. }
  assert (Hstep : ∀ i, i ≤ length p →
    check_next_for fuel (__init__ p heap0).2 [Ref (S i)] ch
    = if graph_ok p i ch then Next (Ref (S i)) else Rejected).
  { intros i Hi. cbn [check_next_for].
    destruct (decide (i < length p)) as [Hlt|Hge].
    - rewrite Hself by done. by destruct (graph_ok p i ch).
    - replace i with (length p) by lia. by rewrite Hterm, Hout. }
  unfold check_next. rewrite fresh_heap at 1 by done. rewrite lookup_cons.
  destruct a as [|a]; cbn [next_states].
  { apply Hstep. lia. }
  destruct (decide (a < length p)) as [Hlt|Hge].
  - destruct (lookup_lt_is_Some_2 p a Hlt) as [c Hc].
    rewrite (new_states_lookup p 1 (Ref 0) a c Hc). cbn [next_states].
    apply Hstep. lia.
  - replace a with (length p) by lia. rewrite new_states_last.
    cbn [next_states check_next_for]. by rewrite Hout by lia.
Qed.

(** X17. In the chain of the first construction, for a pattern of ASCII
    characters, [check_next] on the state at [a] returns the state at
    [a + 1] when this state, made for the character at [a] of the pattern,
    accepts the character given, and raises [NotImplementedError]
    otherwise: always on the last state of the pattern and on the
    termination state, so the termination state is never returned. *)
Theorem check_next_follows_chain (p : pystr) (ch : char) (a fuel : nat) :
  Forall (λ c, isascii c = true) p → a ≤ length p + 1 → length p < fuel →
  check_next fuel (__init__ p heap0).2 (Ref a) ch
  = (if graph_ok p a ch then Next (Ref (S a)) else Rejected) ∧
  (length p ≤ a →
   check_next fuel (__init__ p heap0).2 (Ref a) ch = Rejected).
Proof.
  intros Hp Ha Hfuel. rewrite check_next_fresh by done. split; [done|].
  intros Hge. unfold graph_ok. by rewrite nearest_atom_out.
Qed.

Lemma check_next_follows_chain_witness :
  Forall (λ c, isascii c = true) (py "ab") ∧
  check_next 3 (__init__ (py "ab") heap0).2 (Ref 1) 98%N = Next (Ref 2) ∧
  check_next 3 (__init__ (py "ab") heap0).2 (Ref 2) 98%N = Rejected.
Proof.
  assert (H : Forall (λ c, isascii c = true) (py "ab")) by (by repeat constructor).
  split; [exact H|]. split.
  - exact (proj1 (check_next_follows_chain (py "ab") 98%N 1 3 H
                    (le_S _ _ (le_S _ _ (le_n 1))) (le_n 3))).
  - exact (proj1 (check_next_follows_chain (py "ab") 98%N 2 3 H
                    (le_S _ _ (le_n 2)) (le_n 3))).
Defined.

(** X18. After a second construction the start state has the first states
    of both instances as next states, the older first: when the first
    pattern begins with an atom [X], [check_next] on the start state
    returns the first state of the first instance for every character that
    [X] accepts, and tries the first state of the second instance only for
    the others. *)
Theorem check_next_prefers_first_instance (p q : pystr) (X ch : char)
    (fuel : nat) :
  Forall (λ c, isascii c = true) p → Forall (λ c, isascii c = true) q →
  p !! 0 = Some X → in_star_plus X = false → 1 < fuel →
  check_next fuel (construct_all [p; q] heap0) (Ref 0) ch
  = if ok X ch then Next (Ref 1)
    else if graph_ok q 0 ch then Next (Ref (length p + 2))
    else Rejected.
Proof.
  intros Hp Hq HX HXa Hfuel. unfold construct_all. cbn [foldl].
  rewrite (fresh_heap p Hp).
  set (start1 := {| cls := StartState; next_states := [Ref 1] |}).
  set (h1 := start1 :: new_states 1 (Ref 0) p).
  assert (Hlen1 : length h1 = length p + 2).
  { unfold h1. cbn [length]. rewrite new_states_length. lia. }
  assert (Hstart : (__init__ q h1).2 !! 0
                   = Some (append (first_next q h1) start1)).
  { by apply init_start_after. }
  assert (Hfirst : first_next q h1 = Ref (length p + 2)).
  { unfold first_next. rewrite Hlen1. destruct Hq as [|c q Hc _]; [done|].
    by rewrite Hc. }
  assert (Hone : check_self fuel (__init__ q h1).2 (Ref 1) ch = Val (ok X ch)).
  { destruct fuel as [|fuel]; [lia|]. cbn [check_self].
    rewrite init_frame by lia. unfold h1. rewrite lookup_cons.
    rewrite (new_states_lookup p 1 (Ref 0) 0 X HX). cbn [cls].
    destruct (class_of_atom X (Ref 0) HXa) as [[-> ->]|[Hne ->]]; [done|].
    unfold ok. by apply N.eqb_neq in Hne as ->. }
  assert (Htwo : check_self fuel (__init__ q h1).2 (Ref (length p + 2)) ch
                 = Val (graph_ok q 0 ch)).
  { rewrite <- Hlen1. destruct q as [|c q].
    - destruct fuel as [|fuel]; [lia|]. cbn [check_self].
      rewrite init_heap by (done || lia). cbn [snd new_states].
      rewrite lookup_app_r by (rewrite length_alter; lia).
      by rewrite length_alter, Nat.sub_diag.
    - rewrite <- (Nat.add_0_r (length h1)).
      apply (check_self_built (c :: q) h1 start1 ch Hq eq_refl eq_refl 0 fuel);
        cbn; lia. }
  unfold check_next. rewrite Hstart, Hfirst.
  change (next_states (append (Ref (length p + 2)) start1))
    with [Ref 1; Ref (length p + 2)].
  clearbody h1. cbn [check_next_for]. rewrite Hone.
  destruct (ok X ch); [done|]. rewrite Htwo. by destruct (graph_ok q 0 ch).
Qed.

Lemma check_next_prefers_first_instance_witness :
  Forall (λ c, isascii c = true) (py "a") ∧
  Forall (λ c, isascii c = true) (py ".") ∧
  check_next 2 (construct_all [py "a"; py "."] heap0) (Ref 0) 97%N = Next (Ref 1) ∧
  check_next 2 (construct_all [py "a"; py "."] heap0) (Ref 0) 98%N = Next (Ref 3).
Proof.
  assert (Ha : Forall (λ c, isascii c = true) (py "a")) by (by repeat constructor).
  assert (Hd : Forall (λ c, isascii c = true) (py ".")) by (by repeat constructor).
  split; [exact Ha|]. split; [exact Hd|]. split.
  - exact (check_next_prefers_first_instance (py "a") (py ".") 97%N 97%N 2
             Ha Hd eq_refl eq_refl (le_n 2)).
  - exact (check_next_prefers_first_instance (py "a") (py ".") 97%N 98%N 2
             Ha Hd eq_refl eq_refl (le_n 2)).
Defined.

(** ** Quantifier characters as atoms *)

Lemma tokens_of_nil_inv (p : pystr) : tokens_of p = [] → p = [].
Proof. destruct p as [|ch [|nxt rest]]; cbn; [done..|]. by destruct (in_star_plus nxt). Qed.

Lemma atom_position_cons (t : token) (p : pystr) :
  (∃ t' : token, last (t :: tokens_of p) = Some t' ∧ t'.2 ≠ []) →
  (p = [] ∧ t.2 ≠ []) ∨ (p ≠ [] ∧ atom_position p).
Proof.
  intros (t' & Hlast & Ht'). rewrite last_cons in Hlast.
  destruct (last (tokens_of p)) as [t''|] eqn:Hp.
  - right. split.
    + intros ->. done.
    + right. exists t''. split; [done|]. congruence.
  - left. apply last_None, tokens_of_nil_inv in Hp. split; congruence.
Qed.

(** After a prefix that ends on a quantifier, the tokens are those of the
    prefix and then those of the rest, read from its first character. *)
Lemma tokens_of_app_atom (p1 p2 : pystr) :
  atom_position p1 → tokens_of (p1 ++ p2) = tokens_of p1 ++ tokens_of p2.
Proof.
  induction p1 as [|ch nxt rest Hq IH|ch tl Hq IH] using tokens_of_scan_ind.
  - done.
  - intros [?|Hlast]; [done|]. rewrite tokens_of_quant in Hlast by done.
    cbn [app]. rewrite !tokens_of_quant by done. cbn [app]. f_equal.
    apply atom_position_cons in Hlast as [[-> _]|[_ Hrest]]; [done|by apply IH].
  - intros [?|Hlast]; [done|]. rewrite tokens_of_plain in Hlast by done.
    apply atom_position_cons in Hlast as [[_ ?]|[Htl Hpos]]; [done|].
    cbn [app]. rewrite !tokens_of_plain; [|done|by destruct tl].
    cbn [app]. f_equal. by apply IH.
Qed.

Lemma in_star_plus_not_dot (q : char) : in_star_plus q = true → q ≠ dot.
Proof.
  unfold in_star_plus. by intros [->%N.eqb_eq| ->%N.eqb_eq]%orb_true_iff.
Qed.

Lemma ok_quantifier (q c : char) :
  in_star_plus q = true → ok q c = true ↔ c = q.
Proof.
  intros Hq%in_star_plus_not_dot. rewrite ok_spec. split; [|by auto].
  by intros [?| ->].
Qed.

(** A pattern of one ['*'] or ['+'], or one that ends on it in atom
    position, takes this character itself at the end of the input. *)
Lemma returns_atom_quantifier (p1 : pystr) (q : char) (s : pystr) :
  in_star_plus q = true → atom_position p1 →
  returns {| pattern := p1 ++ [q] |} s true ↔
  ∃ s1, s = s1 ++ [q] ∧ returns {| pattern := p1 |} s1 true.
Proof.
  intros Hq Hp1. rewrite returns_iff, accepts_cut_by. cbn [pattern].
  rewrite tokens_of_app_atom, cut_by_app by done.
  change (tokens_of [q]) with [(q, @nil N)]. split.
  - intros (s1 & s2 & -> & Hs1 & Hs2). exists s1.
    apply cut_by_one, token_takes_other in Hs2 as (c & -> & Hc); [|done..].
    apply ok_quantifier in Hc as ->; [|done].
    split; [done|]. by rewrite returns_iff, accepts_cut_by.
  - intros (s1 & -> & Hs1). exists s1, [q]. split; [done|].
    rewrite returns_iff, accepts_cut_by in Hs1. split; [done|].
    apply cut_by_one, token_takes_other; [done..|].
    exists q. split; [done|]. by apply ok_quantifier.
Qed.

(** C10. A ['*'] or ['+'] in atom position, at the start of the pattern or
    after a character read as a quantifier, is compiled, is the atom of a
    token, and is matched as a literal character: [ok] accepts for it this
    character only, and a pattern that ends on it accepts the inputs of
    the pattern before it with this character added.  So ["a**"] accepts
    ["a*"] and ["a*+"] accepts ["a+"]; ["*"] accepts ["*"] and nothing
    else, ["+"] accepts ["+"] and nothing else. *)
Theorem quantifier_in_atom_position_is_literal :
  (atom_position [] ∧
   ∀ X q1 : char, in_star_plus q1 = true → atom_position [X; q1]) ∧
  (∀ (p1 rest : pystr) (q : char),
     in_star_plus q = true → atom_position p1 →
     Forall (λ c, isascii c = true) (p1 ++ q :: rest) →
     (∃ h, __init__ (p1 ++ q :: rest) heap0
           = (Val {| pattern := p1 ++ q :: rest |}, h)) ∧
     (∃ quant tokens, ∀ fuel, length (p1 ++ q :: rest) < fuel →
        tokenize fuel (p1 ++ q :: rest) 0 []
        = Val (tokens_of p1 ++ (q, quant) :: tokens))) ∧
  (∀ (p1 : pystr) (q : char) (s : pystr),
     in_star_plus q = true → atom_position p1 →
     returns {| pattern := p1 ++ [q] |} s true ↔
     ∃ s1, s = s1 ++ [q] ∧ returns {| pattern := p1 |} s1 true) ∧
  (∀ q c : char, in_star_plus q = true → (ok q c = true ↔ c = q)) ∧
  (∃ self h, __init__ (py "a**") heap0 = (Val self, h) ∧
             returns self (py "a*") true) ∧
  (∃ self h, __init__ (py "a*+") heap0 = (Val self, h) ∧
             returns self (py "a+") true) ∧
  (∃ self h, __init__ (py "*") heap0 = (Val self, h) ∧
             ∀ s : pystr, returns self s true ↔ s = py "*") ∧
  (∃ self h, __init__ (py "+") heap0 = (Val self, h) ∧
             ∀ s : pystr, returns self s true ↔ s = py "+").
Proof.
  assert (Hone : ∀ q : char, in_star_plus q = true →
    ∃ self h, __init__ [q] heap0 = (Val self, h) ∧
              ∀ s : pystr, returns self s true ↔ s = [q]).
  { intros q Hq. destruct (init_ascii [q] heap0) as [h Hinit].
    { repeat constructor. unfold in_star_plus, isascii in *.
      by apply orb_true_iff in Hq as [->%N.eqb_eq| ->%N.eqb_eq]. }
    exists {| pattern := [q] |}, h. split; [exact Hinit|]. intros s.
    rewrite (returns_atom_quantifier [] q s Hq) by (by left). split.
    - intros (s1 & -> & ->%returns_iff%bool_decide_eq_true). done.
    - intros ->. exists []. split; [done|]. by apply returns_iff. }
  assert (Hrun : ∀ p s : pystr,
    Forall (λ c, isascii c = true) p → accepts (tokens_of p) s = true →
    ∃ self h, __init__ p heap0 = (Val self, h) ∧ returns self s true).
  { intros p s Hp Hacc. destruct (init_ascii p heap0 Hp) as [h Hinit].
    exists {| pattern := p |}, h. split; [exact Hinit|]. by apply returns_iff. }
  split; [|split; [|split; [|split; [|split; [|split; [|split]]]]]].
  - split; [by left|]. intros X q1 Hq1. right.
    rewrite tokens_of_quant by done. by exists (X, [q1]).
  - intros p1 rest q Hq Hp1 Hascii. split; [by apply init_ascii|].
    assert (∃ quant tokens, tokens_of (q :: rest) = (q, quant) :: tokens)
      as (quant & tokens & Htok).
    { destruct rest as [|nxt rest]; cbn [tokens_of]; [by eauto|].
      destruct (in_star_plus nxt); by eauto. }
    exists quant, tokens. intros fuel Hfuel.
    rewrite tokenize_tokens_of by lia.
    by rewrite drop_0, tokens_of_app_atom, Htok.
  - apply returns_atom_quantifier.
  - apply ok_quantifier.
  - apply Hrun; [repeat constructor|]. vm_compute. reflexivity.
  - apply Hrun; [repeat constructor|]. vm_compute. reflexivity.
  - apply (Hone star). reflexivity.
  - apply (Hone plus). reflexivity.
Qed.

(** ** The calls of one invocation *)

Lemma match_while_log_Forall_inv (P : call → Prop) (fuel : nat)
    (k : nat → outcome (bool * list call)) (okp : char → bool) (s : pystr) :
  (∀ j b log, k j = Val (b, log) → Forall P log) →
  ∀ indx b log,
    match_while_log fuel k okp s indx = Val (b, log) → Forall P log.
Proof.
  intros Hk indx b log. apply match_while_log_Forall. by eauto.
Qed.

(** A property of the calls that goes from an invocation to those it
    calls holds of every call of a run. *)
Lemma match_log_Forall (Q : nat → nat → Prop) (P : call → Prop)
    (tokens : list token) (s : pystr) :
  (∀ pi si j, Q pi si → Q (pi + 1) j) →
  (∀ pi si j, Q pi si → P {| caller := (pi, si); callee := (pi + 1, j) |}) →
  ∀ fuel pattern_ind str_ind b log,
    Q pattern_ind str_ind →
    match_log fuel tokens s pattern_ind str_ind = Val (b, log) →
    Forall P log.
Proof.
  intros HQ HP. induction fuel as [|fuel IH]; intros pi si b log Hpi; [done|].
  cbn [match_log].
  destruct (pi =? length tokens); [by intros [= _ <-]|].
  destruct (getitem tokens pi) as [[sym quant]| |];
    cbn [mbind outcome_bind]; try done.
  assert (Hrecur : ∀ j b' log',
    traced (pi, si) (pi + 1, j) (match_log fuel tokens s (pi + 1) j)
    = Val (b', log') → Forall P log').
  { intros j b' log' (log'' & Hrun & ->)%traced_Val.
    constructor; [by apply HP|].
    apply (IH (pi + 1) j b' log''); [exact (HQ pi si j Hpi)|done]. }
  assert (Hseq : ∀ indx (run : outcome (bool * list call)),
    (∀ b' log', run = Val (b', log') → Forall P log') →
    ('(b, log) ← traced (pi, si) (pi + 1, indx)
                   (match_log fuel tokens s (pi + 1) indx);
     if (b : bool) then Val (true, log)
     else '(b, log') ← run; Val (b, log ++ log')) = Val (b, log) →
    Forall P log).
  { intros indx run Hrun.
    destruct (traced _ _ _) as [[[] log1]| |] eqn:H1; cbn [mbind outcome_bind];
      try done.
    { intros [= _ <-]. by eapply Hrecur. }
    destruct run as [[b2 log2]| |]; cbn [mbind outcome_bind]; try done.
    intros [= _ <-]. apply Forall_app. split; [by eapply Hrecur|by eapply Hrun]. }
  destruct (bool_decide (quant = [star])).
  { apply Hseq. intros b' log'. by apply match_while_log_Forall_inv. }
  destruct (bool_decide (quant = [plus])).
  { destruct (length s <=? si); [by intros [= _ <-]|].
    destruct (getitem s si) as [c| |]; cbn [mbind outcome_bind]; try done.
    destruct (negb (ok sym c)); [by intros [= _ <-]|].
    apply Hseq. intros b' log'. by apply match_while_log_Forall_inv. }
  destruct (si <? length s); [|by intros [= _ <-]].
  destruct (getitem s si) as [c| |]; cbn [mbind outcome_bind]; try done.
  destruct (ok sym c); [|by intros [= _ <-]].
  apply Hrecur.
Qed.

(** The calls of a run are made by the invocation that begins it or for
    later tokens. *)
Lemma match_log_callers (fuel : nat) (tokens : list token) (s : pystr)
    (pattern_ind str_ind : nat) (b : bool) (log : list call) :
  match_log fuel tokens s pattern_ind str_ind = Val (b, log) →
  Forall (λ e, pattern_ind ≤ (caller e).1) log.
Proof.
  intros Hrun.
  apply (match_log_Forall (λ pi _, pattern_ind ≤ pi)
           (λ e, pattern_ind ≤ (caller e).1) tokens s
           ltac:(cbn; intros; lia) ltac:(cbn; intros; lia)
           fuel pattern_ind str_ind b log (le_n _) Hrun).
Qed.

Lemma own_calls_later (pattern_ind : nat) (log : list call) :
  Forall (λ e, pattern_ind + 1 ≤ (caller e).1) log →
  own_calls pattern_ind log = [].
Proof.
  unfold own_calls. induction 1 as [|e log He _ IH]; [done|].
  rewrite filter_cons_False by lia. done.
Qed.

Lemma own_calls_traced (fuel : nat) (tokens : list token) (s : pystr)
    (pi si j : nat) (b : bool) (log : list call) :
  traced (pi, si) (pi + 1, j) (match_log fuel tokens s (pi + 1) j)
  = Val (b, log) →
  own_calls pi log = calls_from pi si j 1.
Proof.
  intros (log' & Hrun%match_log_callers & ->)%traced_Val.
  unfold own_calls. rewrite filter_cons_True by done.
  fold (own_calls pi log'). by rewrite (own_calls_later pi log' Hrun).
Qed.

Lemma calls_from_S (pi si first n : nat) :
  calls_from pi si first (S n)
  = calls_from pi si first 1 ++ calls_from pi si (first + 1) n.
Proof. unfold calls_from. by replace (first + 1) with (S first) by lia. Qed.

Lemma own_calls_while (fuel' : nat) (tokens : list token) (s : pystr)
    (pi si : nat) (okp : char → bool) :
  ∀ fuel indx b log,
    match_while_log fuel
      (λ j, traced (pi, si) (pi + 1, j) (match_log fuel' tokens s (pi + 1) j))
      okp s indx = Val (b, log) →
    ∃ n, own_calls pi log = calls_from pi si (indx + 1) n.
Proof.
  induction fuel as [|fuel IH]; intros indx b log; [done|].
  cbn [match_while_log].
  destruct (indx <? length s); [|intros [= _ <-]; by exists 0].
  destruct (getitem s indx) as [c| |]; cbn [mbind outcome_bind]; try done.
  destruct (okp c); [|intros [= _ <-]; by exists 0].
  destruct (traced _ _ _) as [[[] log1]| |] eqn:H1; cbn [mbind outcome_bind];
    try done.
  { intros [= _ <-]. exists 1. by eapply own_calls_traced. }
  destruct (match_while_log fuel _ okp s (indx + 1)) as [[b2 log2]| |] eqn:H2;
    cbn [mbind outcome_bind]; try done.
  intros [= _ <-]. destruct (IH _ _ _ H2) as [n Hn]. exists (S n).
  unfold own_calls in *. rewrite filter_app, Hn.
  fold (own_calls pi log1). rewrite (own_calls_traced _ _ _ _ _ _ _ _ H1).
  by rewrite (calls_from_S pi si (indx + 1) n).
Qed.

Lemma match_log_own_calls (fuel : nat) (tokens : list token) (s : pystr)
    (pi si : nat) (b : bool) (log : list call) :
  match_log fuel tokens s pi si = Val (b, log) →
  ∃ n, own_calls pi log = calls_from pi si (first_index tokens pi si) n ∧
       (quant_at tokens pi = Some [star] → 1 ≤ n) ∧
       (quant_at tokens pi ≠ Some [star] → quant_at tokens pi ≠ Some [plus] →
        n ≤ 1).
Proof.
  destruct fuel as [|fuel]; [done|]. cbn [match_log].
  destruct (Nat.eqb_spec pi (length tokens)) as [->|Hne].
  { intros [= _ <-]. exists 0. split; [done|]. split; [|lia].
    unfold quant_at. by rewrite lookup_ge_None_2. }
  destruct (getitem tokens pi) as [[sym quant]| |] eqn:Htok;
    cbn [mbind outcome_bind]; try done.
  apply getitem_Val in Htok.
  assert (Hq : quant_at tokens pi = Some quant).
  { unfold quant_at. by rewrite Htok. }
  unfold first_index. rewrite Hq.
  assert (Hseq : ∀ indx b log,
    ('(b, log) ← traced (pi, si) (pi + 1, indx)
                   (match_log fuel tokens s (pi + 1) indx);
     if (b : bool) then Val (true, log)
     else '(b, log') ←
            match_while_log fuel
              (λ j, traced (pi, si) (pi + 1, j)
                      (match_log fuel tokens s (pi + 1) j))
              (ok sym) s indx;
          Val (b, log ++ log')) = Val (b, log) →
    ∃ n, own_calls pi log = calls_from pi si indx n ∧ 1 ≤ n).
  { intros indx b' log'.
    destruct (traced _ _ _) as [[[] log1]| |] eqn:H1; cbn [mbind outcome_bind];
      try done.
    { intros [= _ <-]. exists 1. split; [|done]. by eapply own_calls_traced. }
    destruct (match_while_log fuel _ (ok sym) s indx) as [[b2 log2]| |] eqn:H2;
      cbn [mbind outcome_bind]; try done.
    intros [= _ <-]. destruct (own_calls_while _ _ _ _ _ _ _ _ _ _ H2) as [n Hn].
    exists (S n). split; [|lia]. unfold own_calls in *. rewrite filter_app, Hn.
    fold (own_calls pi log1). rewrite (own_calls_traced _ _ _ _ _ _ _ _ H1).
    by rewrite (calls_from_S pi si indx n). }
  destruct (bool_decide_reflect (quant = [star])) as [->|Hns].
  { rewrite bool_decide_eq_true_2 by done.
    intros (n & Hn & Hn1)%Hseq. exists n. split; [done|]. split; [done|].
    by intros []. }
  rewrite (bool_decide_eq_false_2 (Some quant = Some [star])) by congruence.
  destruct (bool_decide_reflect (quant = [plus])) as [->|Hnp].
  { destruct (length s <=? si); [intros [= _ <-]; exists 0; by repeat split|].
    destruct (getitem s si) as [c| |]; cbn [mbind outcome_bind]; try done.
    destruct (negb (ok sym c)); [intros [= _ <-]; exists 0; by repeat split|].
    intros (n & Hn & _)%Hseq. exists n. split; [done|]. split; [done|].
    by intros _ []. }
  assert (Hnq : Some quant ≠ Some [star]) by congruence.
  destruct (si <? length s);
    [|intros [= _ <-]; exists 0; split; [done|split; [done|lia]]].
  destruct (getitem s si) as [c| |]; cbn [mbind outcome_bind]; try done.
  destruct (ok sym c);
    [|intros [= _ <-]; exists 0; split; [done|split; [done|lia]]].
  intros Hrun. exists 1. split; [by eapply own_calls_traced|].
  split; [done|lia].
Qed.

(** C8 (amended). Every recursive call of [match] goes to the next token
    and never back in the string.  The calls that one invocation
    [match(pattern_ind, str_ind)] makes itself pass the indices of the
    string one after the other: from [str_ind] on for a token with ["*"],
    whose first call, for no repetition, keeps [str_ind] and whose later
    calls pass a greater index each; from [str_ind + 1] on for a token
    with ["+"]; and one call at most, with [str_ind + 1], for a token
    without quantifier. *)
Theorem recursive_calls_advance (fuel : nat) (tokens : list token) (s : pystr)
    (pattern_ind str_ind : nat) (b : bool) (log : list call) :
  match_log fuel tokens s pattern_ind str_ind = Val (b, log) →
  match_ fuel tokens s pattern_ind str_ind = Val b ∧
  Forall (call_advances tokens) log ∧
  (∃ n, own_calls pattern_ind log
        = calls_from pattern_ind str_ind
            (first_index tokens pattern_ind str_ind) n ∧
        (quant_at tokens pattern_ind = Some [star] → 1 ≤ n) ∧
        (quant_at tokens pattern_ind ≠ Some [star] →
         quant_at tokens pattern_ind ≠ Some [plus] → n ≤ 1)) ∧
  (∀ self : RegexFSM,
     pattern_ind = 0 → str_ind = 0 →
     tokenize fuel (pattern self) 0 [] = Val tokens →
     check_string fuel self s = Val b).
Proof.
  intros Hrun.
  assert (Hb : match_ fuel tokens s pattern_ind str_ind = Val b).
  { by rewrite <- match_log_forget, Hrun. }
  split; [done|]. split; [by eapply match_log_advances|].
  split; [by eapply match_log_own_calls|].
  intros self -> -> Htok. unfold check_string. rewrite Htok.
  cbn [mbind outcome_bind]. done.
Qed.

Lemma recursive_calls_advance_witness :
  check_string 8 {| pattern := py "a*b" |} (py "aab") = Val true ∧
  Forall (call_advances (tokens_of (py "a*b")))
    [{| caller := (0, 0); callee := (1, 0) |};
     {| caller := (0, 0); callee := (1, 1) |};
     {| caller := (0, 0); callee := (1, 2) |};
     {| caller := (1, 2); callee := (2, 3) |}] ∧
  ∃ n, own_calls 0
         [{| caller := (0, 0); callee := (1, 0) |};
          {| caller := (0, 0); callee := (1, 1) |};
          {| caller := (0, 0); callee := (1, 2) |};
          {| caller := (1, 2); callee := (2, 3) |}]
       = calls_from 0 0 0 n.
Proof.
  destruct (recursive_calls_advance 8 (tokens_of (py "a*b")) (py "aab") 0 0 true
              [{| caller := (0, 0); callee := (1, 0) |};
               {| caller := (0, 0); callee := (1, 1) |};
               {| caller := (0, 0); callee := (1, 2) |};
               {| caller := (1, 2); callee := (2, 3) |}] eq_refl)
    as (_ & Hall & (n & Hn & _ & _) & Hcheck).
  split; [exact (Hcheck {| pattern := py "a*b" |} eq_refl eq_refl eq_refl)|].
  split; [exact Hall|]. exists n. exact Hn.
Defined.

(** ** The depth of the recursion *)










